(** * Audio API interface: cache-backed track resolution

    A shallow embedding of [redbot/cogs/audio/apis/interface.py]
    (class [AudioAPIInterface]) and the properties of its deferred write
    queue, its playable-track fetch, its Spotify enqueue loop and its
    autoplay selector.

    Conventions of the embedding.
    - Python values that travel through the write queue and the cache are
      values of [pyval]; a [dict] keeps its insertion order.
    - A coroutine is a function of the world it runs in: it returns either
      a value or a raised exception, together with the world it leaves
      behind.  What happens before a [raise] stays done.
    - External collaborators (the cache store, the YouTube and Spotify
      wrappers, the Lavalink player, the notifier, the configuration, the
      random generator) answer through the record [Env]; every call to one
      of them is recorded in the world's [trace], newest event first.
    - Debug logging ([log.debug], [debug_exc_log]) changes nothing that is
      observed here and is left out.  [await asyncio.sleep] only yields
      to the scheduler and is left out as well. *)

From Stdlib Require Import ZArith List String Ascii Bool Lia Arith.
From Stdlib Require Import DecimalString.
Import ListNotations.

Local Open Scope string_scope.
Local Open Scope list_scope.
Local Open Scope Z_scope.

(** ** Python values *)

Set Warnings "-register-all".

Inductive pyval : Type :=
| PNone
| PBool (b : bool)
| PInt (z : Z)
| PStr (s : string)
| PTuple (l : list pyval)
| PList (l : list pyval)
| PDict (d : list (string * pyval)).

(** [bool(v)] *)
Definition truthy (v : pyval) : bool :=
  match v with
  | PNone => false
  | PBool b => b
  | PInt z => negb (z =? 0)
  | PStr s => negb (s =? EmptyString)%string
  | PTuple l => negb (Nat.eqb (List.length l) 0)
  | PList l => negb (Nat.eqb (List.length l) 0)
  | PDict d => negb (Nat.eqb (List.length d) 0)
  end.

(** [v == s] for a string literal [s] *)
Definition py_eq_str (v : pyval) (s : string) : bool :=
  match v with
  | PStr t => (t =? s)%string
  | _ => false
  end.

(** [isinstance(v, list)] and [isinstance(v, dict)] *)
Definition is_list (v : pyval) : bool :=
  match v with PList _ => true | _ => false end.

Definition is_dict (v : pyval) : bool :=
  match v with PDict _ => true | _ => false end.

Definition is_none (v : pyval) : bool :=
  match v with PNone => true | _ => false end.

(** Dictionary access on an insertion-ordered dict. *)
Fixpoint assoc_get (k : string) (d : list (string * pyval)) : option pyval :=
  match d with
  | [] => None
  | (k', v) :: r => if (k' =? k)%string then Some v else assoc_get k r
  end.

(** [d[k] = v]: an existing key keeps its place, a new key goes last. *)
Fixpoint assoc_set (k : string) (v : pyval) (d : list (string * pyval))
  : list (string * pyval) :=
  match d with
  | [] => [(k, v)]
  | (k', v') :: r =>
      if (k' =? k)%string then (k, v) :: r else (k', v') :: assoc_set k v r
  end.

(** [v.get(k)] for a dict [v] ([None] when absent). *)
Definition dict_get (k : string) (v : pyval) : pyval :=
  match v with
  | PDict d => match assoc_get k d with Some x => x | None => PNone end
  | _ => PNone
  end.

(** ** Exceptions and coroutines *)

(** The exceptions met in this module; all derive from [Exception]. *)
Inductive exn : Type :=
| KeyError
| TypeError
| AttributeError
| ValueError
| RuntimeError
| TimeoutError
| ServerDisconnectedError
| TrackEnqueueError
| SpotifyFetchError (msg : string)
| DatabaseError (msg : string)
| RecursionError
| OtherError (name : string).

Inductive res (A : Type) : Type :=
| Ok (a : A)
| Raise (e : exn).
Arguments Ok {A} a.
Arguments Raise {A} e.

(** ** Collaborator events *)

Record Track : Type := mkTrack {
  track_raw : pyval;
  extras_autoplay : bool
}.

Inductive Event : Type :=
| EvInsert (table : string) (data : pyval)
| EvUpdate (table : string) (data : pyval)
| EvFetchOne (table : string) (key : string)
| EvFetchRandom
| EvSpotifyFetchTracks (query_type uri : string)
| EvYoutubeCall (track_info : string)
| EvLoadTracks (query : string)
| EvNotify (current total : Z) (key : string)
| EvEmbed (title : string)
| EvLock
| EvIsAllowed (t : Track) (allowed : bool)
| EvChoice (index : nat)
| EvGetPlaylist
| EvEnqueue (t : Track)
| EvDispatch (name : string) (t : Track)
| EvShuffle
| EvPlay.

(** ** The deferred write queue: data *)

(** One pending set: [{"update": [], "insert": [], "global": []}]. *)
Record TaskSet : Type := mkTaskSet {
  ts_update : list pyval;
  ts_insert : list pyval;
  ts_global : list pyval
}.

Definition empty_taskset : TaskSet := mkTaskSet [] [] [].

(** The world a coroutine runs in: [self._tasks] (an insertion-ordered
    dict keyed by request id), the player's queue and current track, the
    number of random draws made so far, and the trace of collaborator
    calls (newest first). *)
Record World : Type := mkWorld {
  _tasks : list (Z * TaskSet);
  queue : list Track;
  current : option Track;
  draws : nat;
  trace : list Event
}.

Definition M (A : Type) : Type := World -> res A * World.

Definition ret {A} (a : A) : M A := fun w => (Ok a, w).

Definition raise {A} (e : exn) : M A := fun w => (Raise e, w).

Definition bind {A B} (m : M A) (f : A -> M B) : M B :=
  fun w =>
    match m w with
    | (Ok a, w') => f a w'
    | (Raise e, w') => (Raise e, w')
    end.

Notation "x <- m ;; k" := (bind m (fun x => k))
  (at level 61, m at next level, right associativity).
Notation "m ;;; k" := (bind m (fun _ => k))
  (at level 61, right associativity).

(** [try: m  except Exception: h] *)
Definition try_except {A} (m : M A) (h : exn -> M A) : M A :=
  fun w =>
    match m w with
    | (Ok a, w') => (Ok a, w')
    | (Raise e, w') => h e w'
    end.

Definition lift {A} (r : res A) : M A := fun w => (r, w).

Definition emit (e : Event) : M unit :=
  fun w => (Ok tt, mkWorld (_tasks w) (queue w) (current w) (draws w) (e :: trace w)).

Definition get_tasks : M (list (Z * TaskSet)) := fun w => (Ok (_tasks w), w).

Definition set_tasks (t : list (Z * TaskSet)) : M unit :=
  fun w => (Ok tt, mkWorld t (queue w) (current w) (draws w) (trace w)).

(** The events a run added, oldest first. *)
Definition emitted (before after : World) : list Event :=
  rev (firstn (List.length (trace after) - List.length (trace before)) (trace after)).

(** ** Cache tier policy *)

(** Modelled from the spec: the bit-flag set [CacheLevel] of [utils.py],
    which is not part of this file: "an enumerated bit-flag set over
    Spotify, YouTube, PlayableTrack, plus an empty set and an all set",
    with the subset test [is_subset]. *)
Definition CacheLevel : Type := Z.

Definition set_spotify : CacheLevel := 1.
Definition set_youtube : CacheLevel := 2.
Definition set_lavalink : CacheLevel := 4.
Definition cache_none : CacheLevel := 0.
Definition cache_all : CacheLevel := 7.

Definition is_subset (a b : CacheLevel) : bool := Z.land a b =? a.

(** ** Collaborators *)

Record Query : Type := mkQuery {
  q_str : string;
  q_valid : bool;
  q_is_local : bool;
  q_local_exists : bool
}.

Inductive LoadType : Type :=
| TRACK_LOADED | PLAYLIST_LOADED | SEARCH_RESULT | NO_MATCHES | LOAD_FAILED
| V2_COMPAT | V2_COMPACT.

Record LoadResult : Type := mkLoadResult {
  load_type : LoadType;
  tracks : list Track;
  _raw : pyval
}.

Record Playlist : Type := mkPlaylist {
  tracks_obj : list Track;
  pl_tracks : pyval
}.

Record SpotifyTrackInfo : Type := mkSpotifyTrackInfo {
  song_url : pyval;
  track_info : string;
  sp_uri : pyval;
  artist_name : pyval;
  track_name : pyval;
  sp_id : pyval;
  sp_type : pyval
}.

Record Env : Type := mkEnv {
  (** [config.cache_level()] *)
  cache_level : CacheLevel;
  (** the clock, in seconds *)
  time_now : Z;
  (** [local_cache_api.<table>.insert(data)] and [.update(data)]:
      [None] when the write succeeds *)
  store_insert : string -> pyval -> option exn;
  store_update : string -> pyval -> option exn;
  (** [local_cache_api.<table>.fetch_one({key})]: the pair
      [(val, update)] *)
  store_fetch_one : string -> string -> res (pyval * bool);
  (** [youtube_api.get_call(track_info)] *)
  youtube_get_call : string -> res pyval;
  (** [player.load_tracks(query)] *)
  load_tracks : string -> res (option LoadResult);
  (** Stage A, [_spotify_fetch_tracks(query_type, uri)] *)
  spotify_fetch_tracks : string -> string -> res (list pyval);
  (** [spotify_api.get_spotify_track_info(track)] *)
  get_spotify_track_info : pyval -> SpotifyTrackInfo;
  (** [Query.process_input] on a resolved URL and on a track *)
  process_input : pyval -> Query;
  process_input_track : Track -> Query;
  (** [self.is_allowed(config, guild, text)], the text being built from
      the track *)
  is_allowed : Track -> bool;
  (** [self.track_limit(track, maxlength)] *)
  track_limit : Track -> Z -> bool;
  (** the guild setting [maxlength] *)
  maxlength : Z;
  (** the autoplaylist setting and [get_playlist] *)
  autoplaylist_enabled : bool;
  get_playlist : res Playlist;
  (** [local_cache_api.lavalink.fetch_random] decoded and drawn from *)
  random_track_from_db : option Track;
  (** the [k]-th value of the random generator *)
  rng : nat -> nat;
  (** [player.channel.guild.id] *)
  guild_id : Z
}.

Record Context : Type := mkContext {
  message_id : Z
}.

(** ** The deferred write queue: operations *)

Fixpoint tasks_mem (k : Z) (t : list (Z * TaskSet)) : bool :=
  match t with
  | [] => false
  | (k', _) :: r => (k' =? k) || tasks_mem k r
  end.

Fixpoint tasks_get (k : Z) (t : list (Z * TaskSet)) : option TaskSet :=
  match t with
  | [] => None
  | (k', v) :: r => if k' =? k then Some v else tasks_get k r
  end.

Fixpoint tasks_del (k : Z) (t : list (Z * TaskSet)) : list (Z * TaskSet) :=
  match t with
  | [] => []
  | (k', v) :: r => if k' =? k then r else (k', v) :: tasks_del k r
  end.

Fixpoint tasks_set (k : Z) (v : TaskSet) (t : list (Z * TaskSet))
  : list (Z * TaskSet) :=
  match t with
  | [] => [(k, v)]
  | (k', v') :: r =>
      if k' =? k then (k, v) :: r else (k', v') :: tasks_set k v r
  end.

(** [self._tasks[k]], a [KeyError] when [k] is absent *)
Definition tasks_index (k : Z) : M TaskSet :=
  fun w =>
    match tasks_get k (_tasks w) with
    | Some v => (Ok v, w)
    | None => (Raise KeyError, w)
    end.

(** [local_cache_api.<table>.insert(data)] *)
Definition local_insert (env : Env) (table : string) (data : pyval) : M unit :=
  emit (EvInsert table data) ;;;
  match store_insert env table data with
  | None => ret tt
  | Some e => raise e
  end.

(** [local_cache_api.<table>.update(data)] *)
Definition local_update (env : Env) (table : string) (data : pyval) : M unit :=
  emit (EvUpdate table data) ;;;
  match store_update env table data with
  | None => ret tt
  | Some e => raise e
  end.

(** [route_tasks(action_type, table, data)] *)
Definition route_tasks (env : Env) (action_type table data : pyval) : M unit :=
  if negb (truthy data) then ret tt
  else if py_eq_str action_type "insert" && is_list data then
    if py_eq_str table "lavalink" then local_insert env "lavalink" data
    else if py_eq_str table "youtube" then local_insert env "youtube" data
    else if py_eq_str table "spotify" then local_insert env "spotify" data
    else ret tt
  else if py_eq_str action_type "update" then
    if py_eq_str table "lavalink" then local_update env "lavalink" data
    else if py_eq_str table "youtube" then local_update env "youtube" data
    else if py_eq_str table "spotify" then local_update env "spotify" data
    else ret tt
  else ret tt.

(** [self.route_tasks] applied to an unpacked argument list: the positional arguments are bound when
    the coroutine object is made, the three parameters default to [None]
    and a fourth argument is a [TypeError]. *)
Definition route_tasks_star (env : Env) (args : list pyval) : res (M unit) :=
  match args with
  | [] => Ok (route_tasks env PNone PNone PNone)
  | [a] => Ok (route_tasks env a PNone PNone)
  | [a; t] => Ok (route_tasks env a t PNone)
  | [a; t; d] => Ok (route_tasks env a t d)
  | _ => Raise TypeError
  end.

(** The list comprehension that calls [route_tasks] once for every key [a] of
    [tasks], with the list [tasks[a]] unpacked as its arguments. *)
Fixpoint make_coroutines (env : Env) (groups : list (list pyval))
  : res (list (M unit)) :=
  match groups with
  | [] => Ok []
  | g :: r =>
      match route_tasks_star env g with
      | Raise e => Raise e
      | Ok c =>
          match make_coroutines env r with
          | Raise e => Raise e
          | Ok cs => Ok (c :: cs)
          end
      end
  end.

(** [asyncio.gather] with [return_exceptions=True]: every coroutine is run,
    an exception one of them raises becomes its result and is dropped
    with the other results.  The coroutines are run one after the other,
    in the order given. *)
Fixpoint gather (cs : list (M unit)) : M unit :=
  match cs with
  | [] => ret tt
  | c :: r => fun w => gather r (snd (c w))
  end.

(** The [await asyncio.gather(...)] line of a flush, over the lists
    [groups] of the three categories. *)
Definition run_coroutines (env : Env) (groups : list (list pyval)) : M unit :=
  cs <- lift (make_coroutines env groups) ;;
  gather cs.

(** [ctx.message.id], an [AttributeError] when [ctx] is [None] *)
Definition ctx_message_id (ctx : option Context) : M Z :=
  match ctx with
  | Some c => ret (message_id c)
  | None => raise AttributeError
  end.

(** The values of a pending set in key order: update, insert, global. *)
Definition taskset_values (t : TaskSet) : list (list pyval) :=
  [ts_update t; ts_insert t; ts_global t].

(** [run_tasks(ctx, message_id)] *)
Definition run_tasks (env : Env) (ctx : option Context) (message_id : option Z)
  : M unit :=
  lock_id <- match message_id with
             | Some m => ret m
             | None => ctx_message_id ctx
             end ;;
  t <- get_tasks ;;
  if tasks_mem lock_id t then
    try_except
      (cid <- ctx_message_id ctx ;;
       tasks <- tasks_index cid ;;
       t' <- get_tasks ;;
       set_tasks (tasks_del cid t') ;;;
       run_coroutines env (taskset_values tasks))
      (fun _ => ret tt)
  else ret tt.

(** The loop of [run_all_pending_tasks] that fills
    [tasks = {"update": [], "insert": [], "global": []}]: each pending
    set appends its three lists, as three elements, to the three lists of
    [tasks]. *)
Fixpoint collect_pending (t : list (Z * TaskSet))
  (acc : list pyval * list pyval * list pyval)
  : list pyval * list pyval * list pyval :=
  match t with
  | [] => acc
  | (_, task) :: r =>
      let '(u, i, g) := acc in
      collect_pending r
        ((u ++ [PList (ts_update task)])%list,
         (i ++ [PList (ts_insert task)])%list,
         (g ++ [PList (ts_global task)])%list)
  end.

(** [run_all_pending_tasks()] *)
Definition run_all_pending_tasks (env : Env) : M unit :=
  try_except
    (t <- get_tasks ;;
     let '(u, i, g) := collect_pending t ([], [], []) in
     set_tasks [] ;;;
     run_coroutines env [u; i; g])
    (fun _ => ret tt).

(** [append_task(ctx, event, task, _id)] *)
Definition append_task (ctx : Context) (event : string) (task : pyval)
  (_id : option Z) : M unit :=
  let lock_id :=
    match _id with
    | Some i => if i =? 0 then message_id ctx else i
    | None => message_id ctx
    end in
  t <- get_tasks ;;
  (if tasks_mem lock_id t then ret tt
   else set_tasks (t ++ [(lock_id, empty_taskset)])%list) ;;;
  s <- tasks_index lock_id ;;
  t' <- get_tasks ;;
  if (event =? "update")%string then
    set_tasks (tasks_set lock_id
                 (mkTaskSet (ts_update s ++ [task])%list (ts_insert s) (ts_global s)) t')
  else if (event =? "insert")%string then
    set_tasks (tasks_set lock_id
                 (mkTaskSet (ts_update s) (ts_insert s ++ [task])%list (ts_global s)) t')
  else if (event =? "global")%string then
    set_tasks (tasks_set lock_id
                 (mkTaskSet (ts_update s) (ts_insert s) (ts_global s ++ [task])%list) t')
  else raise KeyError.

(** ** Serialization *)

Local Open Scope string_scope.

Definition hex_digit (n : nat) : ascii :=
  match n with
  | 0 => "0" | 1 => "1" | 2 => "2" | 3 => "3" | 4 => "4" | 5 => "5"
  | 6 => "6" | 7 => "7" | 8 => "8" | 9 => "9" | 10 => "a" | 11 => "b"
  | 12 => "c" | 13 => "d" | 14 => "e" | _ => "f"
  end%char%nat.

Definition str1 (c : ascii) : string := String c EmptyString.

Definition dquote : string := str1 (ascii_of_nat 34).
Definition backslash : string := str1 (ascii_of_nat 92).

(** One character of a JSON string, as [json.dumps] writes it.  Strings
    are taken to be ASCII. *)
Definition json_escape_char (c : ascii) : string :=
  let n := nat_of_ascii c in
  if Nat.eqb n 34 then backslash ++ dquote else
  if Nat.eqb n 92 then backslash ++ backslash else
  if Nat.eqb n 10 then backslash ++ "n" else
  if Nat.eqb n 13 then backslash ++ "r" else
  if Nat.eqb n 9 then backslash ++ "t" else
  if Nat.eqb n 8 then backslash ++ "b" else
  if Nat.eqb n 12 then backslash ++ "f" else
  if Nat.ltb n 32 then
    backslash ++ "u00" ++ str1 (hex_digit (Nat.div n 16))
      ++ str1 (hex_digit (Nat.modulo n 16))
  else str1 c.

Fixpoint json_escape (s : string) : string :=
  match s with
  | EmptyString => EmptyString
  | String c r => json_escape_char c ++ json_escape r
  end.

Definition json_string (s : string) : string :=
  dquote ++ json_escape s ++ dquote.

(** [json.dumps(v)] with the default separators. *)
Fixpoint json_dumps (v : pyval) : string :=
  let fix items (l : list pyval) : string :=
    match l with
    | [] => EmptyString
    | [x] => json_dumps x
    | x :: r => json_dumps x ++ ", " ++ items r
    end in
  let fix members (d : list (string * pyval)) : string :=
    match d with
    | [] => EmptyString
    | [(k, x)] => json_string k ++ ": " ++ json_dumps x
    | (k, x) :: r => json_string k ++ ": " ++ json_dumps x ++ ", " ++ members r
    end in
  match v with
  | PNone => "null"
  | PBool true => "true"
  | PBool false => "false"
  | PInt z => NilZero.string_of_int (Z.to_int z)
  | PStr s => json_string s
  | PTuple l => "[" ++ items l ++ "]"
  | PList l => "[" ++ items l ++ "]"
  | PDict d => "{" ++ members d ++ "}"
  end.

(** [needle in hay] for two strings: [needle] occurs in [hay]. *)
Fixpoint contains (needle hay : string) : bool :=
  if String.prefix needle hay then true
  else match hay with
       | EmptyString => false
       | String _ r => contains needle r
       end.

(** The names [fetch_track] looks for in a serialized response. *)
Definition shape_keys : list string :=
  ["loadType"; "playlistInfo"; "isSeekable"; "isStream"].

Local Open Scope list_scope.
Local Open Scope Z_scope.

(** ** Load results *)

(** Modelled from the spec: the class [LoadResult] of the lavalink
    library, which is not part of this file: "LoadResult has a status
    tag, error flag, and ordered track list".  The constructor reads the
    status tag under [loadType] and the tracks under [tracks]; a key that
    is absent gets its fallback ([LOAD_FAILED], [{}], [[]]); the error
    flag is that the status tag is [LOAD_FAILED]. *)
Definition parse_load_type (v : pyval) : res LoadType :=
  match v with
  | PStr s =>
      if (s =? "TRACK_LOADED")%string then Ok TRACK_LOADED
      else if (s =? "PLAYLIST_LOADED")%string then Ok PLAYLIST_LOADED
      else if (s =? "SEARCH_RESULT")%string then Ok SEARCH_RESULT
      else if (s =? "NO_MATCHES")%string then Ok NO_MATCHES
      else if (s =? "LOAD_FAILED")%string then Ok LOAD_FAILED
      else if (s =? "V2_COMPAT")%string then Ok V2_COMPAT
      else if (s =? "V2_COMPACT")%string then Ok V2_COMPACT
      else Raise ValueError
  | _ => Raise ValueError
  end.

Definition with_fallback (k : string) (v : pyval) (d : list (string * pyval))
  : list (string * pyval) :=
  match assoc_get k d with
  | Some _ => d
  | None => assoc_set k v d
  end.

Definition LoadResult_init (data : pyval) : res LoadResult :=
  match data with
  | PDict d =>
      let raw :=
        with_fallback "tracks" (PList [])
          (with_fallback "playlistInfo" (PDict [])
             (with_fallback "loadType" (PStr "LOAD_FAILED") d)) in
      match parse_load_type (dict_get "loadType" (PDict raw)) with
      | Raise e => Raise e
      | Ok lt =>
          match dict_get "tracks" (PDict raw) with
          | PList ts =>
              Ok (mkLoadResult lt (map (fun t => mkTrack t false) ts) (PDict raw))
          | _ => Raise TypeError
          end
      end
  | _ => Raise TypeError
  end.

Definition has_error (r : LoadResult) : bool :=
  match load_type r with
  | LOAD_FAILED => true
  | _ => false
  end.

(** ** Stage C: the playable-track fetch *)

(** [local_cache_api.<table>.fetch_one({key: k})] *)
Definition fetch_one (env : Env) (table key : string) : M (pyval * bool) :=
  emit (EvFetchOne table key) ;;;
  lift (store_fetch_one env table key).

(** The guarded read of every call site:
    [try: (val, update) = await fetch_one(...)  except Exception: ...],
    after which [val] is [None] when the read raised. *)
Definition cache_read (env : Env) (table key : string) : M pyval :=
  try_except (r <- fetch_one env table key ;; ret (fst r)) (fun _ => ret PNone).

(** [player.load_tracks(query)] as [fetch_track] calls it: a [KeyError]
    gives [None], a [RuntimeError] becomes a [TrackEnqueueError], every
    other exception goes up. *)
Definition call_load_tracks (env : Env) (query : string)
  : M (option LoadResult) :=
  emit (EvLoadTracks query) ;;;
  match load_tracks env query with
  | Ok r => ret r
  | Raise KeyError => ret None
  | Raise RuntimeError => raise TrackEnqueueError
  | Raise e => raise e
  end.

Definition load_failed_literal : pyval :=
  PDict [("loadType", PStr "LOAD_FAILED"); ("playlistInfo", PDict []);
         ("tracks", PList [])].

(** The task [("lavalink", {"query": query})] staged on a cache hit. *)
Definition lavalink_update_task (query : string) : pyval :=
  PTuple [PStr "lavalink"; PDict [("query", PStr query)]].

(** The task staged for a result worth caching. *)
Definition lavalink_insert_task (query data : string) (now : Z) : pyval :=
  PTuple [PStr "lavalink";
          PList [PDict [("query", PStr query); ("data", PStr data);
                        ("last_updated", PInt now); ("last_fetched", PInt now)]]].

(** [all(k in data for k in [...])] *)
Definition has_shape (data : string) : bool :=
  forallb (fun k => contains k data) shape_keys.

(** The cached dict made ready for decoding: [data["query"] = query] and
    the [V2_COMPACT] tag renamed. *)
Definition prepare_cached (val : pyval) (query : string) : pyval :=
  match val with
  | PDict d =>
      let d1 := assoc_set "query" (PStr query) d in
      if py_eq_str (dict_get "loadType" (PDict d1)) "V2_COMPACT"
      then PDict (assoc_set "loadType" (PStr "V2_COMPAT") d1)
      else PDict d1
  | _ => val
  end.

(** Lines 703 to 722 of [fetch_track]: the cache lookup, which leaves
    in [val] a usable cached dict or [None]. *)
Definition cache_lookup (env : Env) (ctx : Context) (_raw_query : Query)
  (forced : bool) : M pyval :=
  let cache_enabled := is_subset set_lavalink (cache_level env) in
  let query := q_str _raw_query in
  if cache_enabled && negb forced && negb (q_is_local _raw_query) then
    val <- cache_read env "lavalink" query ;;
    val <- (if truthy val && is_dict val
            then append_task ctx "update" (lavalink_update_task query) None ;;;
                 ret val
            else ret PNone) ;;
    (if truthy val && negb forced && is_dict val then ret val else ret PNone)
  else ret PNone.

(** Lines 754 to 783 of [fetch_track]: the staging of a result worth
    caching.  [results.load_type] is a member of an enumeration, which is
    always true. *)
Definition stage_insert (env : Env) (ctx : Context) (_raw_query : Query)
  (results : LoadResult) : M unit :=
  let cache_enabled := is_subset set_lavalink (cache_level env) in
  let query := q_str _raw_query in
  if cache_enabled && negb (has_error results)
     && negb (q_is_local _raw_query)
     && negb (Nat.eqb (List.length (tracks results)) 0)
  then
    try_except
      (let data := json_dumps (_raw results) in
       if has_shape data
       then append_task ctx "insert"
              (lavalink_insert_task query data (time_now env)) None
       else ret tt)
      (fun _ => ret tt)
  else ret tt.

(** [fetch_track(ctx, player, query, forced, lazy)].  The query it is
    given is a [Query] already, which [Query.process_input] hands back as
    it is.  The function calls itself once, with [forced=True], when a
    cached entry decodes to an errored result; [fuel] bounds that
    recursion. *)
Fixpoint fetch_track_fuel (fuel : nat) (env : Env) (ctx : Context)
  (query : Query) (forced lazy : bool) : M (LoadResult * bool) :=
  match fuel with
  | O => raise RecursionError
  | S fuel' =>
      let _raw_query := query in
      let query := q_str _raw_query in
      val <- cache_lookup env ctx _raw_query forced ;;
      rc <- (if lazy then ret (None, false)
             else if truthy val && negb forced then
               results <- lift (LoadResult_init (prepare_cached val query)) ;;
               if has_error results then
                 rc <- fetch_track_fuel fuel' env ctx _raw_query true false ;;
                 ret (Some (fst rc), snd rc)
               else ret (Some results, false)
             else
               results <- call_load_tracks env query ;;
               ret (results, true)) ;;
      results <- match fst rc with
                 | Some r => ret r
                 | None => lift (LoadResult_init load_failed_literal)
                 end ;;
      stage_insert env ctx _raw_query results ;;;
      ret (results, snd rc)
  end.

Definition fetch_track (env : Env) (ctx : Context) (query : Query)
  (forced lazy : bool) : M (LoadResult * bool) :=
  fetch_track_fuel 2 env ctx query forced lazy.

(** ** Stage B: YouTube resolution *)

Definition youtube_insert_task (track_info : string) (track_url : pyval)
  (now : Z) : pyval :=
  PTuple [PStr "youtube";
          PList [PDict [("track_info", PStr track_info); ("track_url", track_url);
                        ("last_updated", PInt now); ("last_fetched", PInt now)]]].

Definition youtube_update_task (track_info : string) : pyval :=
  PTuple [PStr "youtube"; PDict [("track", PStr track_info)]].

(** [_youtube_first_time_query(ctx, track_info, current_cache_level)] *)
Definition _youtube_first_time_query (env : Env) (ctx : Context)
  (track_info : string) (current_cache_level : CacheLevel) : M pyval :=
  emit (EvYoutubeCall track_info) ;;;
  track_url <- lift (youtube_get_call env track_info) ;;
  (if is_subset set_youtube current_cache_level && truthy track_url
   then append_task ctx "insert"
          (youtube_insert_task track_info track_url (time_now env)) None
   else ret tt) ;;;
  ret track_url.

(** [youtube_query(ctx, track_info)] *)
Definition youtube_query (env : Env) (ctx : Context) (track_info : string)
  : M pyval :=
  let current_cache_level := cache_level env in
  let cache_enabled := is_subset set_youtube current_cache_level in
  val <- (if cache_enabled
          then cache_read env "youtube" track_info
          else ret PNone) ;;
  if is_none val then
    _youtube_first_time_query env ctx track_info current_cache_level
  else
    (if cache_enabled
     then append_task ctx "update" (youtube_update_task track_info) None
     else ret tt) ;;;
    ret val.

(** ** Stage A callers: the Spotify queries *)

(** Stage A itself, [_spotify_fetch_tracks], walks the pages of the
    Spotify listing; its calls to the Spotify API begin with its first
    statement.  It is kept as a collaborator that hands back the listed
    tracks or raises. *)
Definition _spotify_fetch_tracks (env : Env) (query_type uri : string)
  : M (list pyval) :=
  emit (EvSpotifyFetchTracks query_type uri) ;;;
  lift (spotify_fetch_tracks env query_type uri).

(** The row written to the Spotify table for one listed track. *)
Definition spotify_entry (i : SpotifyTrackInfo) (now : Z) : pyval :=
  PDict [("id", sp_id i); ("type", sp_type i); ("uri", sp_uri i);
         ("track_name", track_name i); ("artist_name", artist_name i);
         ("song_url", song_url i); ("track_info", PStr (track_info i));
         ("last_updated", PInt now); ("last_fetched", PInt now)].

Definition spotify_insert_task (database_entries : list pyval) : pyval :=
  PTuple [PStr "spotify"; PList database_entries].

Definition spotify_update_task (uri : string) : pyval :=
  PTuple [PStr "spotify"; PDict [("uri", PStr ("spotify:track:" ++ uri)%string)]].

(** [notifier.notify_user(current, total, key)] *)
Definition notify_user (current total : Z) (key : string) : M unit :=
  emit (EvNotify current total key).

(** The loop variables of [_spotify_first_time_query]. *)
Record FirstTimeState : Type := mkFirstTimeState {
  youtube_urls : list pyval;
  ft_database_entries : list pyval;
  ft_track_count : Z
}.

(** One turn of the loop of [_spotify_first_time_query]; the listed
    tracks are dicts. *)
Definition first_time_body (env : Env) (ctx : Context) (notifier : bool)
  (skip_youtube : bool) (current_cache_level : CacheLevel) (total_tracks : Z)
  (track : pyval) (st : FirstTimeState) : M FirstTimeState :=
  if py_eq_str (dict_get "message" (dict_get "error" track)) "invalid id"
  then ret st
  else
    let youtube_cache := is_subset set_youtube current_cache_level in
    let i := get_spotify_track_info env track in
    let entries := ft_database_entries st ++ [spotify_entry i (time_now env)] in
    urls <- (if negb skip_youtube then
               val <- (if youtube_cache
                       then cache_read env "youtube" (track_info i)
                       else ret PNone) ;;
               val <- (if is_none val
                       then _youtube_first_time_query env ctx (track_info i)
                              current_cache_level
                       else ret val) ;;
               (if youtube_cache && truthy val
                then append_task ctx "update"
                       (youtube_update_task (track_info i)) None
                else ret tt) ;;;
               ret (if truthy val then youtube_urls st ++ [val]
                    else youtube_urls st)
             else ret (youtube_urls st ++ [PStr (track_info i)])) ;;
    let track_count := ft_track_count st + 1 in
    (if notifier && ((track_count mod 2 =? 0) || (track_count =? total_tracks))
     then notify_user track_count total_tracks "youtube"
     else ret tt) ;;;
    ret (mkFirstTimeState urls entries track_count).

Fixpoint first_time_loop (env : Env) (ctx : Context) (notifier : bool)
  (skip_youtube : bool) (current_cache_level : CacheLevel) (total_tracks : Z)
  (tracks : list pyval) (st : FirstTimeState) : M FirstTimeState :=
  match tracks with
  | [] => ret st
  | track :: rest =>
      st' <- first_time_body env ctx notifier skip_youtube current_cache_level
               total_tracks track st ;;
      first_time_loop env ctx notifier skip_youtube current_cache_level
        total_tracks rest st'
  end.

(** [_spotify_first_time_query(ctx, query_type, uri, notifier,
    skip_youtube, current_cache_level)]; [notifier] tells whether a
    notifier was given. *)
Definition _spotify_first_time_query (env : Env) (ctx : Context)
  (query_type uri : string) (notifier : bool) (skip_youtube : bool)
  (current_cache_level : CacheLevel) : M (list pyval) :=
  tracks <- _spotify_fetch_tracks env query_type uri ;;
  let total_tracks := Z.of_nat (List.length tracks) in
  st <- first_time_loop env ctx notifier skip_youtube current_cache_level
          total_tracks tracks (mkFirstTimeState [] [] 0) ;;
  (if is_subset set_spotify current_cache_level
   then append_task ctx "insert"
          (spotify_insert_task (ft_database_entries st)) None
   else ret tt) ;;;
  ret (youtube_urls st).

(** [spotify_query(ctx, query_type, uri, skip_youtube, notifier)] *)
Definition spotify_query (env : Env) (ctx : Context) (query_type uri : string)
  (skip_youtube : bool) (notifier : bool) : M (list pyval) :=
  let current_cache_level := cache_level env in
  let cache_enabled := is_subset set_spotify current_cache_level in
  val <- (if (query_type =? "track")%string && cache_enabled
          then cache_read env "spotify" ("spotify:track:" ++ uri)%string
          else ret PNone) ;;
  if is_none val then
    _spotify_first_time_query env ctx query_type uri notifier skip_youtube
      current_cache_level
  else
    (if (query_type =? "track")%string && cache_enabled
     then append_task ctx "update" (spotify_update_task uri) None
     else ret tt) ;;;
    ret [val].

(** ** The player and the notifier *)

Definition update_embed (title : string) : M unit := emit (EvEmbed title).

(** [lock(ctx, False)] *)
Definition unlock : M unit := emit EvLock.


Definition get_current : M (option Track) := fun w => (Ok (current w), w).

(** [player.add(requester, track)]: the track goes last in the queue. *)
Definition player_add (t : Track) : M unit :=
  fun w =>
    (Ok tt, mkWorld (_tasks w) (queue w ++ [t]) (current w) (draws w)
              (EvEnqueue t :: trace w)).

(** [player.play()]: the first queued track becomes the current one. *)
Definition player_play : M unit :=
  fun w =>
    match queue w with
    | [] => (Ok tt, mkWorld (_tasks w) [] None (draws w) (EvPlay :: trace w))
    | t :: q => (Ok tt, mkWorld (_tasks w) q (Some t) (draws w) (EvPlay :: trace w))
    end.

(** [bot.dispatch(name, guild, track, requester)] *)
Definition dispatch (name : string) (t : Track) : M unit :=
  emit (EvDispatch name t).

(** [self.is_allowed(config, guild, text)] on the text built from [t] *)
Definition call_is_allowed (env : Env) (t : Track) : M bool :=
  emit (EvIsAllowed t (is_allowed env t)) ;;;
  ret (is_allowed env t).

(** ** The Spotify enqueue loop *)

Definition msg_connection_reset : string :=
  "The connection was reset while loading the playlist.".
Definition msg_player_timeout : string :=
  "Player timeout, skipping remaining tracks.".




(** Lines 468 to 501: with the YouTube URL [val] of a listed track known,
    the staging of the cache-timestamp update and the playable tracks of
    the URL.  [None] stands for the [break] of the two handlers;
    [llresponse] is always [None]. *)
Definition resolve_url (env : Env) (ctx : Context) (track_info : string)
  (val : pyval) : M (option (list Track)) :=
  let youtube_cache := is_subset set_youtube (cache_level env) in
  (if youtube_cache && truthy val
   then append_task ctx "update" (youtube_update_task track_info) None
   else ret tt) ;;;
  if truthy val then
    try_except
      (rc <- fetch_track env ctx (process_input env val) false false ;;
       ret (Some (tracks (fst rc))))
      (fun e =>
         match e with
         | RuntimeError | ServerDisconnectedError =>
             unlock ;;; update_embed msg_connection_reset ;;; ret None
         | TimeoutError =>
             unlock ;;; update_embed msg_player_timeout ;;; ret None
         | _ => raise e
         end)
  else ret (Some []).

(** Lines 454 to 501: the YouTube URL of one listed track, from the
    cache or from the YouTube API, then its playable tracks. *)
Definition resolve_track (env : Env) (ctx : Context) (track_info : string)
  : M (option (list Track)) :=
  let current_cache_level := cache_level env in
  let youtube_cache := is_subset set_youtube current_cache_level in
  val <- (if youtube_cache
          then cache_read env "youtube" track_info
          else ret PNone) ;;
  val <- (if is_none val
          then _youtube_first_time_query env ctx track_info current_cache_level
          else ret val) ;;
  resolve_url env ctx track_info val.









(** ** The autoplay selector *)

(** What [autoplay] holds in [tracks] before it selects: nothing, a list
    of tracks, or the one track [get_random_track_from_db] hands back. *)
Inductive Candidates : Type :=
| CNone
| CList (l : list Track)
| CTrack (t : Track).

Definition candidates_truthy (c : Candidates) : bool :=
  match c with
  | CNone => false
  | CList l => negb (Nat.eqb (List.length l) 0)
  | CTrack _ => true
  end.

(** [get_random_track_from_db()] *)
Definition get_random_track_from_db (env : Env) : M Candidates :=
  emit EvFetchRandom ;;;
  ret (match random_track_from_db env with
       | Some t => CTrack t
       | None => CNone
       end).

Definition _TOP_100_US : pyval :=
  PStr "https://www.youtube.com/playlist?list=PL4fGSI1pDJn5rWitrRWFKdm-ulaFiIyoK".

(** Lines 790 to 821: where the candidates come from. *)
Definition autoplay_candidates (env : Env) : M Candidates :=
  let cache_enabled := is_subset set_lavalink (cache_level env) in
  pt <- (if autoplaylist_enabled env
         then emit EvGetPlaylist ;;;
              match get_playlist env with
              | Ok pl => ret (Some pl, CList (tracks_obj pl))
              | Raise _ => ret (None, CNone)
              end
         else ret (None, CNone)) ;;
  let playlist_tracks :=
    match fst pt with
    | Some pl => truthy (pl_tracks pl)
    | None => false
    end in
  if negb (candidates_truthy (snd pt)) || negb playlist_tracks then
    found <- (if cache_enabled then get_random_track_from_db env
              else ret (snd pt)) ;;
    if negb (candidates_truthy found) then
      rc <- fetch_track env (mkContext (guild_id env))
              (process_input env _TOP_100_US) false false ;;
      ret (CList (tracks (fst rc)))
    else ret found
  else ret (snd pt).

(** [random.choice(tracks)] *)
Definition random_choice (env : Env) (tracks : list Track) (default : Track)
  : M Track :=
  fun w =>
    let i := Nat.modulo (rng env (draws w)) (List.length tracks) in
    (Ok (nth i tracks default),
     mkWorld (_tasks w) (queue w) (current w) (S (draws w))
       (EvChoice i :: trace w)).

(** Whether a drawn candidate stops the redrawing: its query is valid,
    it is not a local file that is missing, and the filter allows it. *)
Definition acceptable (env : Env) (t : Track) : bool :=
  let query := process_input_track env t in
  q_valid query
  && negb (q_is_local query && negb (q_local_exists query))
  && is_allowed env t.

(** The [while] loop of [autoplay], entered with [valid = False] and
    [multiple = True]; [tries] is the counter before the turn. *)
Fixpoint select_loop (env : Env) (tries : nat) (tracks : list Track)
  (default : Track) : M Track :=
  match tries with
  | O => raise (DatabaseError "No valid entry found")
  | S tries' =>
      if Nat.leb tries' 0 then raise (DatabaseError "No valid entry found")
      else
        track <- random_choice env tracks default ;;
        let query := process_input_track env track in
        if negb (q_valid query) then select_loop env tries' tracks default
        else if q_is_local query && negb (q_local_exists query)
        then select_loop env tries' tracks default
        else
          allowed <- call_is_allowed env track ;;
          if negb allowed then select_loop env tries' tracks default
          else ret track
  end.

(** Lines 855 to 861: the winner is marked as an autoplay track and
    enqueued, and the player is started when it is idle. *)
Definition autoplay_enqueue (track : Track) : M unit :=
  let track := mkTrack (track_raw track) true in
  player_add track ;;;
  dispatch "red_audio_track_auto_play" track ;;;
  c <- get_current ;;
  match c with
  | None => player_play
  | Some _ => ret tt
  end.

(** Lines 822 to 861: the selection among the candidates and the
    enqueue of the winner. *)
Definition autoplay_select (env : Env) (tracks : list Track) : M unit :=
  match tracks with
  | [] => ret tt
  | first :: _ =>
      let multiple := Nat.ltb 1 (List.length tracks) in
      track <- (if multiple
                then select_loop env (List.length tracks) tracks first
                else ret first) ;;
      autoplay_enqueue track
  end.

(** [autoplay(player, playlist_api)].  A single track taken from the
    database has no length, so [len(tracks)] raises for it. *)
Definition autoplay (env : Env) : M unit :=
  c <- autoplay_candidates env ;;
  match c with
  | CNone => ret tt
  | CList l => autoplay_select env l
  | CTrack _ => raise TypeError
  end.

(** * Observations on a run *)

(** The insert operations staged for the request of [ctx]. *)
Definition inserts_of (ctx : Context) (w : World) : list pyval :=
  match tasks_get (message_id ctx) (_tasks w) with
  | Some s => ts_insert s
  | None => []
  end.

Definition is_load_tracks (e : Event) : bool :=
  match e with EvLoadTracks _ => true | _ => false end.

(** How many times the playable-track provider was called. *)
Definition provider_calls (w : World) : nat :=
  List.length (filter is_load_tracks (trace w)).






(** The world once the read of [key] in [table] has been recorded. *)
Definition after_read (table key : string) (w : World) : World :=
  snd (emit (EvFetchOne table key) w).

(** The cache tier is on for the query, the read is not skipped, and the
    store answers with a non-empty dict. *)
Definition cache_hit (env : Env) (q : Query) (forced : bool) : bool :=
  is_subset set_lavalink (cache_level env) && negb forced
  && negb (q_is_local q)
  && match store_fetch_one env "lavalink" (q_str q) with
     | Ok (v, _) => truthy v && is_dict v
     | Raise _ => false
     end.

(** The provider yields no result for the query: it returns [None] or
    raises a [KeyError]. *)
Definition provider_silent (env : Env) (query : string) : bool :=
  match load_tracks env query with
  | Ok None => true
  | Raise KeyError => true
  | _ => false
  end.

(** The default result: status [LOAD_FAILED], no track. *)
Definition load_failed_result : LoadResult :=
  mkLoadResult LOAD_FAILED [] load_failed_literal.



(** The keys of a pending set. *)
Definition known_event (event : string) : Prop :=
  event = "update" \/ event = "insert" \/ event = "global".

(** What [cache_lookup] leaves in [val]. *)
Definition lookup_value (env : Env) (q : Query) (forced : bool) : pyval :=
  if cache_hit env q forced then
    match store_fetch_one env "lavalink" (q_str q) with
    | Ok (v, _) => v
    | Raise _ => PNone
    end
  else PNone.

(** The world [cache_lookup] leaves: the read recorded when the cache is
    consulted, and the timestamp update staged on a hit. *)
Definition lookup_world (env : Env) (ctx : Context) (q : Query) (forced : bool)
  (w : World) : World :=
  if is_subset set_lavalink (cache_level env) && negb forced
     && negb (q_is_local q)
  then
    if cache_hit env q forced
    then snd (append_task ctx "update" (lavalink_update_task (q_str q)) None
                (after_read "lavalink" (q_str q) w))
    else after_read "lavalink" (q_str q) w
  else w.

(** The conditions under which [stage_insert] stages a result. *)
Definition worth_caching (env : Env) (q : Query) (r : LoadResult) : bool :=
  is_subset set_lavalink (cache_level env) && negb (has_error r)
  && negb (q_is_local q)
  && negb (Nat.eqb (List.length (tracks r)) 0)
  && has_shape (json_dumps (_raw r)).

(** The events of the calls that neither touch the player nor consult
    the content filter nor draw at random. *)
Definition collab_event (e : Event) : bool :=
  match e with
  | EvInsert _ _ | EvUpdate _ _ | EvFetchOne _ _ | EvFetchRandom
  | EvSpotifyFetchTracks _ _ | EvYoutubeCall _ | EvLoadTracks _
  | EvNotify _ _ _ | EvEmbed _ | EvLock | EvGetPlaylist | EvShuffle => true
  | _ => false
  end.

(** A coroutine keeps the relation [R] between the world it starts in
    and the world it leaves, whether it returns or raises. *)
Definition keeps (R : World -> World -> Prop) {A} (m : M A) : Prop :=
  forall w, R w (snd (m w)).

(** The trace only grows. *)
Definition extends (w w' : World) : Prop :=
  exists l, trace w' = l ++ trace w.


(** A read that yields no entry: it raised, or it found nothing. *)
Definition no_entry (r : res (pyval * bool)) : bool :=
  match r with
  | Raise _ => true
  | Ok (PNone, _) => true
  | Ok _ => false
  end.











(** * Further observations *)

Definition is_store_call (e : Event) : bool :=
  match e with
  | EvInsert _ _ | EvUpdate _ _ => true
  | _ => false
  end.

(** The calls made to the store's [insert] and [update], oldest first. *)
Definition store_calls (w : World) : list Event :=
  rev (filter is_store_call (trace w)).


(** A value that [route_tasks] takes for neither of its two actions. *)
Definition inert (v : pyval) : bool :=
  negb (py_eq_str v "insert") && negb (py_eq_str v "update").

Definition is_tuple (v : pyval) : bool :=
  match v with PTuple _ => true | _ => false end.

(** The operations staged for a request, over the three categories. *)
Definition staged_ops (k : Z) (w : World) : list pyval :=
  match tasks_get k (_tasks w) with
  | Some s => ts_update s ++ ts_insert s ++ ts_global s
  | None => []
  end.

(** The world with other pending sets. *)
Definition with_tasks (t : list (Z * TaskSet)) (w : World) : World :=
  mkWorld t (queue w) (current w) (draws w) (trace w).

(** A pending set with one more operation in the category [event]. *)
Definition add_to (event : string) (task : pyval) (s : TaskSet) : TaskSet :=
  if (event =? "update")%string
  then mkTaskSet (ts_update s ++ [task]) (ts_insert s) (ts_global s)
  else if (event =? "insert")%string
  then mkTaskSet (ts_update s) (ts_insert s ++ [task]) (ts_global s)
  else mkTaskSet (ts_update s) (ts_insert s) (ts_global s ++ [task]).

(** The pending set of a request, empty when the request has none. *)
Definition pending_of (k : Z) (w : World) : TaskSet :=
  match tasks_get k (_tasks w) with
  | Some s => s
  | None => empty_taskset
  end.

(** The request ids are the keys of a dict: no id occurs twice. *)
Definition keys_unique (w : World) : Prop := NoDup (map fst (_tasks w)).

(** The pending sets once [append_task] has made sure that the request
    has one. *)
Definition ensured (k : Z) (t : list (Z * TaskSet)) : list (Z * TaskSet) :=
  if tasks_mem k t then t else t ++ [(k, empty_taskset)].

Definition is_fetch_one (e : Event) : bool :=
  match e with EvFetchOne _ _ => true | _ => false end.

(** How many times the cache store was read. *)
Definition cache_reads (w : World) : nat :=
  List.length (filter is_fetch_one (trace w)).

Definition is_youtube_call (e : Event) : bool :=
  match e with EvYoutubeCall _ => true | _ => false end.

(** How many times the YouTube API was called. *)
Definition youtube_calls (w : World) : nat :=
  List.length (filter is_youtube_call (trace w)).

(** The world once the YouTube API has been called for [track_info]. *)
Definition after_youtube (track_info : string) (w : World) : World :=
  snd (emit (EvYoutubeCall track_info) w).

(** The world with one more operation staged for the request of [ctx]. *)
Definition staged (ctx : Context) (event : string) (task : pyval) (w : World)
  : World :=
  snd (append_task ctx event task None w).

(** No result of a fetch of [q] is worth caching: the query is local or
    the playable-track scope is off. *)
Definition worth_caching_never (env : Env) (q : Query) : Prop :=
  forall r, worth_caching env q r = false.









Definition is_filter_call (e : Event) : bool :=
  match e with EvIsAllowed _ _ => true | _ => false end.

(** How many times the content filter was consulted. *)
Definition filter_calls (w : World) : nat :=
  List.length (filter is_filter_call (trace w)).


(** The world once the autoplaylist has been asked for. *)
Definition after_playlist (w : World) : World := snd (emit EvGetPlaylist w).

(** Neither the cache store nor the provider was asked between the two
    worlds. *)
Definition no_lookup (w w' : World) : Prop :=
  provider_calls w' = provider_calls w /\ cache_reads w' = cache_reads w.

(** * The Spotify listing, page by page

    The body of [_spotify_fetch_tracks] (lines 242 to 304), whose
    result the development above takes as given.  The Spotify wrapper
    is a collaborator; [recursive] is [False] or the [next] of a page;
    the notifications are kept in a log, newest first, each with the
    count and the total it shows. *)
Module Listing.

(** [spotify_api.spotify_format_call] and [spotify_api.get_call] *)
Record SpotifyApi : Type := mkSpotifyApi {
  spotify_format_call : string -> string -> res (pyval * pyval);
  get_call : pyval -> pyval -> res pyval
}.

Definition rbind {A B} (r : res A) (f : A -> res B) : res B :=
  match r with
  | Ok a => f a
  | Raise e => Raise e
  end.

(** [v[k]] for a string [k] *)
Definition py_getitem (v : pyval) (k : string) : res pyval :=
  match v with
  | PDict d =>
      match assoc_get k d with
      | Some x => Ok x
      | None => Raise KeyError
      end
  | _ => Raise TypeError
  end.

(** [v.get(k, default)] *)
Definition py_get (v : pyval) (k : string) (default : pyval) : res pyval :=
  match v with
  | PDict d =>
      Ok match assoc_get k d with
         | Some x => x
         | None => default
         end
  | _ => Raise AttributeError
  end.

Fixpoint chars (s : string) : list pyval :=
  match s with
  | EmptyString => []
  | String c r => PStr (String c EmptyString) :: chars r
  end.

(** What a [for] loop or [list.extend] goes through. *)
Definition py_iter (v : pyval) : res (list pyval) :=
  match v with
  | PList l | PTuple l => Ok l
  | PStr s => Ok (chars s)
  | PDict d => Ok (map (fun kv => PStr (fst kv)) d)
  | _ => Raise TypeError
  end.

(** [len(v)] *)
Definition py_len (v : pyval) : res Z :=
  match v with
  | PList l | PTuple l => Ok (Z.of_nat (List.length l))
  | PStr s => Ok (Z.of_nat (String.length s))
  | PDict d => Ok (Z.of_nat (List.length d))
  | _ => Raise TypeError
  end.

(** [v is False] *)
Definition is_false (v : pyval) : bool :=
  match v with PBool false => true | _ => false end.

(** [v == n] for an integer [n] *)
Definition eq_int (v : pyval) (n : Z) : bool :=
  match v with
  | PInt m => m =? n
  | PBool b => (if b then 1 else 0) =? n
  | _ => false
  end.

(** Only the first line of the message is kept. *)
Definition msg_auth : string :=
  "The Spotify API key or client secret has not been set properly. ".

Definition msg_invalid : string :=
  "This doesn't seem to be a valid Spotify playlist/album URL or code.".

(** [{"next": None}] *)
Definition next_none : pyval := PDict [("next", PNone)].

(** Lines 252 to 256: the call to the Spotify API, and the [params] in
    force after it. *)
Definition first_call (api : SpotifyApi) (query_type uri : string)
  (recursive params : pyval) : res (pyval * pyval) :=
  if is_false recursive then
    rbind (spotify_format_call api query_type uri) (fun cp =>
    rbind (get_call api (fst cp) (snd cp)) (fun results =>
    Ok (results, snd cp)))
  else
    rbind (get_call api recursive params) (fun results =>
    Ok (results, params)).

(** Lines 257 to 268: the look at the error of the response.  [Some v]
    stands for [return v]. *)
Definition error_check (results recursive : pyval) : res (option pyval) :=
  match rbind (py_getitem results "error") (fun err =>
        rbind (py_getitem err "status") (fun status =>
        if eq_int status 401 && negb (truthy recursive)
        then Raise (SpotifyFetchError msg_auth)
        else if truthy recursive then Ok (Some next_none)
        else Ok None)) with
  | Raise KeyError => Ok None
  | r => r
  end.

(** [[k["track"] for k in tracks_raw if k.get("track")]] *)
Fixpoint with_track (ks : list pyval) : res (list pyval) :=
  match ks with
  | [] => Ok []
  | k :: r =>
      rbind (py_get k "track" PNone) (fun g =>
      if truthy g then
        rbind (py_getitem k "track") (fun v =>
        rbind (with_track r) (fun l => Ok (v :: l)))
      else with_track r)
  end.

(** Lines 275 to 289: the tracks of one page added to [tracks], with
    [len(new_tracks)]. *)
Definition page_tracks (query_type : string) (results : pyval)
  (tracks : list pyval) : res (list pyval * Z) :=
  if (query_type =? "track")%string then
    rbind (py_len results) (fun n => Ok (tracks ++ [results], n))
  else
    rbind (py_get results "tracks" results) (fun inner =>
    rbind (py_get inner "items" (PList [])) (fun tracks_raw =>
    if truthy tracks_raw then
      if (query_type =? "album")%string then
        rbind (py_iter tracks_raw) (fun items =>
        rbind (py_len tracks_raw) (fun n => Ok (tracks ++ items, n)))
      else
        rbind (py_iter tracks_raw) (fun ks =>
        rbind (with_track ks) (fun new_tracks =>
        Ok (tracks ++ new_tracks, Z.of_nat (List.length new_tracks))))
    else Ok (tracks, 0))).

(** The notifications: [(current, total)], newest first. *)
Definition Log : Type := list (Z * pyval).

(** [_spotify_fetch_tracks(query_type, uri, recursive, params,
    notifier)] and its [while] loop; [notifier] tells whether a notifier
    was given.  Every call and every turn of the loop takes one unit of
    [fuel]. *)
Fixpoint _spotify_fetch_tracks (fuel : nat) (api : SpotifyApi)
  (notifier : bool) (query_type uri : string) (recursive params : pyval)
  (log : Log) {struct fuel} : res pyval * Log :=
  match fuel with
  | O => (Raise RecursionError, log)
  | S n =>
      match first_call api query_type uri recursive params with
      | Raise e => (Raise e, log)
      | Ok (results, params) =>
          match error_check results recursive with
          | Raise e => (Raise e, log)
          | Ok (Some v) => (Ok v, log)
          | Ok None =>
              if truthy recursive then (Ok results, log)
              else
                match rbind (py_get results "tracks" results)
                        (fun inner => py_get inner "total" (PInt 1)) with
                | Raise e => (Raise e, log)
                | Ok total_tracks =>
                    pages n api notifier query_type uri params total_tracks
                      results [] 0 log
                end
          end
      end
  end
with pages (fuel : nat) (api : SpotifyApi) (notifier : bool)
  (query_type uri : string) (params total_tracks results : pyval)
  (tracks : list pyval) (track_count : Z) (log : Log) {struct fuel}
  : res pyval * Log :=
  match fuel with
  | O => (Raise RecursionError, log)
  | S n =>
      match page_tracks query_type results tracks with
      | Raise e => (Raise e, log)
      | Ok (tracks, len) =>
          let track_count := track_count + len in
          let log := if notifier then (track_count, total_tracks) :: log
                     else log in
          match py_get results "next" PNone with
          | Raise e => (Raise e, log)
          | Ok next =>
              if negb (is_none next) then
                match py_getitem results "next" with
                | Raise KeyError => (Raise (SpotifyFetchError msg_invalid), log)
                | Raise e => (Raise e, log)
                | Ok cursor =>
                    match _spotify_fetch_tracks n api notifier query_type uri
                            cursor params log with
                    | (Raise KeyError, log') =>
                        (Raise (SpotifyFetchError msg_invalid), log')
                    | (Raise e, log') => (Raise e, log')
                    | (Ok r, log') =>
                        pages n api notifier query_type uri params total_tracks
                          r tracks track_count log'
                    end
                end
              else (Ok (PList tracks), log)
          end
      end
  end.

(** The pages of a listing follow one another: no page carries an
    error, the [next] of each page but the last is a true value that
    the Spotify API answers with the page after it, and the last page
    has no [next]. *)
Fixpoint linked (api : SpotifyApi) (params : pyval) (page : pyval)
  (rest : list pyval) : Prop :=
  py_getitem page "error" = Raise KeyError
  /\ match rest with
     | [] => py_get page "next" PNone = Ok PNone
     | q :: rest' =>
         (exists cursor,
             py_get page "next" PNone = Ok cursor
             /\ truthy cursor = true
             /\ get_call api cursor params = Ok q)
         /\ linked api params q rest'
     end.

(** The tracks of the pages, gathered in order. *)
Fixpoint gather (query_type : string) (pages : list pyval)
  (tracks : list pyval) : res (list pyval) :=
  match pages with
  | [] => Ok tracks
  | p :: rest =>
      rbind (page_tracks query_type p tracks) (fun tn =>
      gather query_type rest (fst tn))
  end.

End Listing.
(** ** A sample environment

    Used where a property is evaluated on a concrete run: every cache
    scope on, an empty cache, a store whose writes succeed, a YouTube
    wrapper that answers with a URL made from the search text, and a
    player that loads one track for every query. *)

Definition py_str (v : pyval) : string :=
  match v with
  | PStr s => s
  | _ => "InvalidQueryPlaceHolderName"
  end.

(** A Lavalink response for one loaded track. *)
Definition sample_raw (title : string) : pyval :=
  PDict [("loadType", PStr "TRACK_LOADED"); ("playlistInfo", PDict []);
         ("tracks",
          PList [PDict [("track", PStr "QAAAdAIAB");
                        ("info",
                         PDict [("title", PStr title); ("author", PStr "a");
                                ("length", PInt 1000);
                                ("isSeekable", PBool true);
                                ("isStream", PBool false)])]])].

Definition sample_loaded (title : string) : LoadResult :=
  match LoadResult_init (sample_raw title) with
  | Ok r => r
  | Raise _ => load_failed_result
  end.

Definition sample_result (title : string) : option LoadResult :=
  Some (sample_loaded title).

Definition sample_env : Env :=
  {| cache_level := cache_all;
     time_now := 1600000000;
     store_insert := fun _ _ => None;
     store_update := fun _ _ => None;
     store_fetch_one := fun _ _ => Ok (PNone, false);
     youtube_get_call := fun ti => Ok (PStr ("https://youtu.be/" ++ ti)%string);
     load_tracks := fun q => Ok (sample_result q);
     spotify_fetch_tracks := fun _ _ => Ok [PStr "one"; PStr "two"];
     get_spotify_track_info :=
       fun t => mkSpotifyTrackInfo PNone (py_str t) PNone PNone PNone PNone PNone;
     process_input := fun v => mkQuery (py_str v) true false false;
     process_input_track :=
       fun t => mkQuery (json_dumps (track_raw t)) true false false;
     is_allowed := fun _ => true;
     track_limit := fun _ _ => true;
     maxlength := 0;
     autoplaylist_enabled := false;
     get_playlist := Raise KeyError;
     random_track_from_db := None;
     rng := fun k => k;
     guild_id := 42 |}.

Definition empty_world : World := mkWorld [] [] None 0 [].

Definition sample_ctx : Context := mkContext 5.

Definition sample_query : Query := mkQuery "https://youtu.be/one" true false false.

(** The environment [env] with another cache level. *)
Definition with_cache_level (env : Env) (level : CacheLevel) : Env :=
  {| cache_level := level;
     time_now := time_now env;
     store_insert := store_insert env;
     store_update := store_update env;
     store_fetch_one := store_fetch_one env;
     youtube_get_call := youtube_get_call env;
     load_tracks := load_tracks env;
     spotify_fetch_tracks := spotify_fetch_tracks env;
     get_spotify_track_info := get_spotify_track_info env;
     process_input := process_input env;
     process_input_track := process_input_track env;
     is_allowed := is_allowed env;
     track_limit := track_limit env;
     maxlength := maxlength env;
     autoplaylist_enabled := autoplaylist_enabled env;
     get_playlist := get_playlist env;
     random_track_from_db := random_track_from_db env;
     rng := rng env;
     guild_id := guild_id env |}.

(** The environment [env] with another answer to cache reads. *)
Definition with_fetch_one (env : Env) (f : string -> string -> res (pyval * bool)) : Env :=
  {| cache_level := cache_level env;
     time_now := time_now env;
     store_insert := store_insert env;
     store_update := store_update env;
     store_fetch_one := f;
     youtube_get_call := youtube_get_call env;
     load_tracks := load_tracks env;
     spotify_fetch_tracks := spotify_fetch_tracks env;
     get_spotify_track_info := get_spotify_track_info env;
     process_input := process_input env;
     process_input_track := process_input_track env;
     is_allowed := is_allowed env;
     track_limit := track_limit env;
     maxlength := maxlength env;
     autoplaylist_enabled := autoplaylist_enabled env;
     get_playlist := get_playlist env;
     random_track_from_db := random_track_from_db env;
     rng := rng env;
     guild_id := guild_id env |}.

(** The environment [env] with another YouTube wrapper. *)
Definition with_youtube (env : Env) (f : string -> res pyval) : Env :=
  {| cache_level := cache_level env;
     time_now := time_now env;
     store_insert := store_insert env;
     store_update := store_update env;
     store_fetch_one := store_fetch_one env;
     youtube_get_call := f;
     load_tracks := load_tracks env;
     spotify_fetch_tracks := spotify_fetch_tracks env;
     get_spotify_track_info := get_spotify_track_info env;
     process_input := process_input env;
     process_input_track := process_input_track env;
     is_allowed := is_allowed env;
     track_limit := track_limit env;
     maxlength := maxlength env;
     autoplaylist_enabled := autoplaylist_enabled env;
     get_playlist := get_playlist env;
     random_track_from_db := random_track_from_db env;
     rng := rng env;
     guild_id := guild_id env |}.

(** The environment [env] with another playable-track provider. *)
Definition with_load_tracks (env : Env) (f : string -> res (option LoadResult)) : Env :=
  {| cache_level := cache_level env;
     time_now := time_now env;
     store_insert := store_insert env;
     store_update := store_update env;
     store_fetch_one := store_fetch_one env;
     youtube_get_call := youtube_get_call env;
     load_tracks := f;
     spotify_fetch_tracks := spotify_fetch_tracks env;
     get_spotify_track_info := get_spotify_track_info env;
     process_input := process_input env;
     process_input_track := process_input_track env;
     is_allowed := is_allowed env;
     track_limit := track_limit env;
     maxlength := maxlength env;
     autoplaylist_enabled := autoplaylist_enabled env;
     get_playlist := get_playlist env;
     random_track_from_db := random_track_from_db env;
     rng := rng env;
     guild_id := guild_id env |}.


(** The environment [env] with another normalization of tracks. *)
Definition with_queries (env : Env) (f : Track -> Query) : Env :=
  {| cache_level := cache_level env;
     time_now := time_now env;
     store_insert := store_insert env;
     store_update := store_update env;
     store_fetch_one := store_fetch_one env;
     youtube_get_call := youtube_get_call env;
     load_tracks := load_tracks env;
     spotify_fetch_tracks := spotify_fetch_tracks env;
     get_spotify_track_info := get_spotify_track_info env;
     process_input := process_input env;
     process_input_track := f;
     is_allowed := is_allowed env;
     track_limit := track_limit env;
     maxlength := maxlength env;
     autoplaylist_enabled := autoplaylist_enabled env;
     get_playlist := get_playlist env;
     random_track_from_db := random_track_from_db env;
     rng := rng env;
     guild_id := guild_id env |}.


(** The environment [env] with another random generator. *)
Definition with_rng (env : Env) (f : nat -> nat) : Env :=
  {| cache_level := cache_level env;
     time_now := time_now env;
     store_insert := store_insert env;
     store_update := store_update env;
     store_fetch_one := store_fetch_one env;
     youtube_get_call := youtube_get_call env;
     load_tracks := load_tracks env;
     spotify_fetch_tracks := spotify_fetch_tracks env;
     get_spotify_track_info := get_spotify_track_info env;
     process_input := process_input env;
     process_input_track := process_input_track env;
     is_allowed := is_allowed env;
     track_limit := track_limit env;
     maxlength := maxlength env;
     autoplaylist_enabled := autoplaylist_enabled env;
     get_playlist := get_playlist env;
     random_track_from_db := random_track_from_db env;
     rng := f;
     guild_id := guild_id env |}.

(** A provider that finds nothing. *)
Definition silent_env : Env :=
  with_load_tracks sample_env (fun _ => Raise KeyError).

(** A cache whose entry for every query is an errored response. *)
Definition stale_entry : pyval :=
  PDict [("loadType", PStr "LOAD_FAILED"); ("playlistInfo", PDict []);
         ("tracks", PList [])].

Definition stale_env : Env :=
  with_fetch_one sample_env (fun _ _ => Ok (stale_entry, true)).

(** A cache store whose every read raises. *)
Definition faulty_env : Env :=
  with_fetch_one sample_env (fun _ _ => Raise (OtherError "OperationalError")).





(** Five autoplay candidates. *)
Definition five_tracks : list Track :=
  map (fun s => mkTrack (PStr s) false) ["c0"; "c1"; "c2"; "c3"; "c4"].


(** Only the candidate [c4] is not a missing local file. *)
Definition one_valid_env : Env :=
  with_queries sample_env
    (fun t => mkQuery (py_str (track_raw t)) true
                (negb (py_str (track_raw t) =? "c4")%string) false).


(** A random generator whose every draw falls on the last candidate. *)
Definition lucky_env : Env := with_rng one_valid_env (fun _ => 4%nat).

(** A cache that holds a URL for every key. *)
Definition warm_env : Env :=
  with_fetch_one sample_env (fun _ _ => Ok (PStr "https://youtu.be/cached", false)).

(** No cache scope is on. *)
Definition cold_env : Env := with_cache_level sample_env cache_none.

(** A cache whose entry for every query is a loaded track. *)
Definition healthy_env : Env :=
  with_fetch_one sample_env (fun _ q => Ok (sample_raw q, false)).








(** The environment [env] with an autoplaylist. *)
Definition with_playlist (env : Env) (pl : res Playlist) : Env :=
  {| cache_level := cache_level env;
     time_now := time_now env;
     store_insert := store_insert env;
     store_update := store_update env;
     store_fetch_one := store_fetch_one env;
     youtube_get_call := youtube_get_call env;
     load_tracks := load_tracks env;
     spotify_fetch_tracks := spotify_fetch_tracks env;
     get_spotify_track_info := get_spotify_track_info env;
     process_input := process_input env;
     process_input_track := process_input_track env;
     is_allowed := is_allowed env;
     track_limit := track_limit env;
     maxlength := maxlength env;
     autoplaylist_enabled := true;
     get_playlist := pl;
     random_track_from_db := random_track_from_db env;
     rng := rng env;
     guild_id := guild_id env |}.

(** An autoplaylist of five tracks, the last of which only is valid. *)
Definition playlist_env : Env :=
  with_playlist lucky_env
    (Ok (mkPlaylist five_tracks (PList (map track_raw five_tracks)))).

(** ** A sample Spotify wrapper

    An album of three tracks on two pages; any other call is answered
    with the error of a bad token. *)
Definition album_page1 : pyval :=
  PDict [("items", PList [PStr "a"; PStr "b"]); ("total", PInt 3);
         ("next", PStr "page2")].

Definition album_page2 : pyval :=
  PDict [("items", PList [PStr "c"]); ("total", PInt 3); ("next", PNone)].

Definition bad_token : pyval :=
  PDict [("error", PDict [("status", PInt 401);
                          ("message", PStr "Invalid access token")])].

Definition sample_api : Listing.SpotifyApi :=
  {| Listing.spotify_format_call :=
       fun query_type uri =>
         Ok (PStr ("https://api.spotify.com/v1/" ++ query_type ++ "s/" ++ uri)%string,
             PDict []);
     Listing.get_call :=
       fun call _ =>
         if py_eq_str call "https://api.spotify.com/v1/albums/abc"
         then Ok album_page1
         else if py_eq_str call "page2" then Ok album_page2
         else Ok bad_token |}.

(** The same album when its second page cannot be had. *)
Definition broken_api : Listing.SpotifyApi :=
  {| Listing.spotify_format_call := Listing.spotify_format_call sample_api;
     Listing.get_call :=
       fun call _ =>
         if py_eq_str call "https://api.spotify.com/v1/albums/abc"
         then Ok album_page1
         else Ok bad_token |}.

(** A page of a playlist with an entry whose track is gone. *)
Definition playlist_page : pyval :=
  PDict [("items",
          PList [PDict [("track", PDict [("name", PStr "one")])];
                 PDict [("track", PNone)];
                 PDict [("added_at", PStr "2020")];
                 PDict [("track", PDict [("name", PStr "two")])]]);
         ("total", PInt 4); ("next", PNone)].
(** * Properties *)

(** ** Coroutine plumbing *)

Lemma bind_ok {A B} (m : M A) (f : A -> M B) w a w' :
  m w = (Ok a, w') -> bind m f w = f a w'.
Proof. intros H. unfold bind. now rewrite H. Qed.

Lemma bind_raise {A B} (m : M A) (f : A -> M B) w e w' :
  m w = (Raise e, w') -> bind m f w = (Raise e, w').
Proof. intros H. unfold bind. now rewrite H. Qed.

(** ** The pending-set dict *)

Lemma tasks_mem_get k t :
  tasks_mem k t = true -> exists v, tasks_get k t = Some v.
Proof.
  induction t as [|[k' v] r IH]; simpl; [discriminate|].
  destruct (k' =? k); simpl; eauto.
Qed.

Lemma tasks_get_app_new k v t :
  tasks_mem k t = false -> tasks_get k (t ++ [(k, v)]) = Some v.
Proof.
  induction t as [|[k' v'] r IH]; simpl.
  - now rewrite Z.eqb_refl.
  - destruct (k' =? k); simpl; [discriminate|auto].
Qed.

Lemma tasks_get_set k v t :
  tasks_mem k t = true -> tasks_get k (tasks_set k v t) = Some v.
Proof.
  induction t as [|[k' v'] r IH]; simpl; [discriminate|].
  destruct (k' =? k) eqn:E; simpl.
  - now rewrite Z.eqb_refl.
  - rewrite E. auto.
Qed.

Lemma tasks_mem_set k v t :
  tasks_mem k t = true -> tasks_mem k (tasks_set k v t) = true.
Proof.
  intros H. destruct (tasks_mem_get _ _ H) as [x Hx].
  clear Hx. induction t as [|[k' v'] r IH]; simpl in *; [discriminate|].
  destruct (k' =? k) eqn:E; simpl.
  - now rewrite Z.eqb_refl.
  - rewrite E. simpl. auto.
Qed.

Lemma tasks_mem_app_new k v t : tasks_mem k (t ++ [(k, v)]) = true.
Proof.
  induction t as [|[k' v'] r IH]; simpl.
  - now rewrite Z.eqb_refl.
  - rewrite IH. apply orb_true_r.
Qed.

(** ** The write queue never fails and never depends on a write's outcome *)







Lemma bind_congr {A B} (m1 m2 : M A) (f : A -> M B) w :
  m1 w = m2 w -> bind m1 f w = bind m2 f w.
Proof. intros H. unfold bind. now rewrite H. Qed.

Lemma bind_ext {A B} (m : M A) (f1 f2 : A -> M B) w :
  (forall a w', f1 a w' = f2 a w') -> bind m f1 w = bind m f2 w.
Proof. intros H. unfold bind. destruct (m w) as [[a|e] w']; auto. Qed.


Lemma swallow_snd {A} (m : M A) (x : A) w :
  snd (try_except m (fun _ => ret x) w) = snd (m w).
Proof. unfold try_except, ret. destruct (m w) as [[a|e] w']; auto. Qed.

Lemma swallow_fst (m : M unit) w :
  fst (try_except m (fun _ => ret tt) w) = Ok tt.
Proof. unfold try_except, ret. destruct (m w) as [[[]|e] w']; auto. Qed.

Lemma run_tasks_ok_with_ctx env c mid w :
  fst (run_tasks env (Some c) mid w) = Ok tt.
Proof.
  unfold run_tasks. unfold bind at 1.
  destruct mid as [m|]; simpl; unfold ret at 1;
    (unfold bind at 1, get_tasks at 1;
     match goal with
     | |- context [tasks_mem ?k ?t] => destruct (tasks_mem k t)
     end; [apply swallow_fst|reflexivity]).
Qed.


Lemma run_all_pending_tasks_ok env w :
  fst (run_all_pending_tasks env w) = Ok tt.
Proof. unfold run_all_pending_tasks. apply swallow_fst. Qed.




(** C1. The flush of a request whose id is passed as [message_id]:
    evaluated on the pending set that [append_task] made for the id 7,
    flushed through a context whose message has the id 5.  [run_tasks]
    finds the id 7 pending, then looks up and deletes under the id 5: the
    [KeyError] is swallowed, nothing is routed to the store and the
    pending set of 7 stays, so that the next flush meets it again.
    Without a context the same flush fails on [ctx.message.id].  With
    both ids pending the flush for 7 removes the set of 5.  And a flush
    through the context alone removes the pending set, yet routes
    nothing to the store: the staged operations of a category are
    unpacked as the arguments [action_type], [table], [data] of
    [route_tasks]. *)
Theorem run_tasks_explicit_id_keeps_pending :
  forall env : Env,
    let staged := youtube_update_task "song" in
    let w1 := snd (append_task sample_ctx "update" staged (Some 7) empty_world) in
    let w2 := snd (run_tasks env (Some sample_ctx) (Some 7) w1) in
    let w3 := snd (append_task sample_ctx "update" staged None w1) in
    let w4 := snd (append_task sample_ctx "update" staged None empty_world) in
    _tasks w1 = [(7, mkTaskSet [staged] [] [])]
    /\ run_tasks env (Some sample_ctx) (Some 7) w1 = (Ok tt, w1)
    /\ run_tasks env (Some sample_ctx) (Some 7) w2 = (Ok tt, w1)
    /\ run_tasks env None (Some 7) w1 = (Ok tt, w1)
    /\ _tasks (snd (run_tasks env (Some sample_ctx) (Some 7) w3))
       = [(7, mkTaskSet [staged] [] [])]
    /\ run_tasks env (Some sample_ctx) None w4 = (Ok tt, empty_world).
Proof. intros env. repeat split. Qed.

(** ** Staging never fails and touches the pending sets only *)


Lemma append_task_ok ctx event task w :
  known_event event -> fst (append_task ctx event task None w) = Ok tt.
Proof.
  intros He. unfold append_task, bind, get_tasks, set_tasks, tasks_index, ret.
  set (k := message_id ctx).
  destruct (tasks_mem k (_tasks w)) eqn:Hm; simpl.
  - destruct (tasks_mem_get _ _ Hm) as [v ->].
    destruct He as [->|[->| ->]]; reflexivity.
  - rewrite (tasks_get_app_new _ empty_taskset _ Hm).
    destruct He as [->|[->| ->]]; reflexivity.
Qed.

Lemma append_task_frame ctx event task _id w :
  let w' := snd (append_task ctx event task _id w) in
  queue w' = queue w /\ current w' = current w /\ draws w' = draws w
  /\ trace w' = trace w.
Proof.
  unfold append_task, bind, get_tasks, set_tasks, tasks_index, ret, raise.
  repeat match goal with
         | |- context [if ?c then _ else _] => destruct c; simpl
         | |- context [match tasks_get ?k ?t with _ => _ end] =>
             destruct (tasks_get k t); simpl
         end; auto.
Qed.

Lemma inserts_of_append_update ctx task w :
  inserts_of ctx (snd (append_task ctx "update" task None w)) = inserts_of ctx w.
Proof.
  unfold inserts_of, append_task, bind, get_tasks, set_tasks, tasks_index, ret.
  set (k := message_id ctx).
  destruct (tasks_mem k (_tasks w)) eqn:Hm; simpl.
  - destruct (tasks_mem_get _ _ Hm) as [v Hv]. rewrite Hv. simpl.
    now rewrite (tasks_get_set _ _ _ Hm).
  - rewrite (tasks_get_app_new _ empty_taskset _ Hm). simpl.
    rewrite tasks_get_set by apply tasks_mem_app_new. simpl.
    destruct (tasks_get k (_tasks w)) eqn:Hg; [|reflexivity].
    exfalso. clear - Hm Hg. induction (_tasks w) as [|[k' v'] r IH]; simpl in *.
    + discriminate.
    + destruct (k' =? k); simpl in *; [discriminate|auto].
Qed.

Lemma tasks_get_not_mem k t : tasks_mem k t = false -> tasks_get k t = None.
Proof.
  induction t as [|[k' v'] r IH]; simpl; [reflexivity|].
  destruct (k' =? k); simpl; [discriminate|auto].
Qed.

Lemma inserts_of_append_insert ctx task w :
  inserts_of ctx (snd (append_task ctx "insert" task None w))
  = inserts_of ctx w ++ [task].
Proof.
  unfold inserts_of, append_task, bind, get_tasks, set_tasks, tasks_index, ret.
  set (k := message_id ctx).
  destruct (tasks_mem k (_tasks w)) eqn:Hm; simpl.
  - destruct (tasks_mem_get _ _ Hm) as [v Hv]. rewrite Hv. simpl.
    now rewrite (tasks_get_set _ _ _ Hm).
  - rewrite (tasks_get_app_new _ empty_taskset _ Hm). simpl.
    rewrite tasks_get_set by apply tasks_mem_app_new. simpl.
    now rewrite (tasks_get_not_mem _ _ Hm).
Qed.

(** ** The guarded cache read *)

Lemma cache_read_eq env table key w :
  cache_read env table key w
  = (Ok match store_fetch_one env table key with
        | Ok (v, _) => v
        | Raise _ => PNone
        end,
     after_read table key w).
Proof.
  unfold cache_read, try_except, fetch_one, bind, emit, lift, ret, after_read.
  simpl. destruct (store_fetch_one env table key) as [[v u]|e]; reflexivity.
Qed.

(** ** The playable-track fetch, piece by piece *)

Lemma pair_eq {A B} (p : A * B) a b : fst p = a -> snd p = b -> p = (a, b).
Proof. destruct p; simpl; congruence. Qed.

Lemma cache_lookup_eq env ctx q forced w :
  cache_lookup env ctx q forced w
  = (Ok (lookup_value env q forced), lookup_world env ctx q forced w).
Proof.
  unfold cache_lookup, lookup_value, lookup_world, cache_hit.
  destruct (is_subset set_lavalink (cache_level env) && negb forced
            && negb (q_is_local q)) eqn:Hc; simpl; [|reflexivity].
  unfold bind at 1. rewrite cache_read_eq.
  destruct (store_fetch_one env "lavalink" (q_str q)) as [[v u]|e];
    [|reflexivity].
  destruct (truthy v && is_dict v) eqn:Hv.
  - unfold bind at 1. unfold bind at 1.
    pose proof (append_task_ok ctx "update" (lavalink_update_task (q_str q))
                  (after_read "lavalink" (q_str q) w)
                  (or_introl eq_refl)) as Hok.
    destruct (append_task ctx "update" (lavalink_update_task (q_str q)) None
                (after_read "lavalink" (q_str q) w)) as [[[]|e] w'];
      simpl in Hok; [|discriminate].
    unfold ret. simpl.
    apply andb_prop in Hc. destruct Hc as [Hc _].
    apply andb_prop in Hc. destruct Hc as [_ Hf].
    destruct forced; [discriminate|].
    apply andb_prop in Hv. destruct Hv as [Ht Hd]. now rewrite Ht, Hd.
  - unfold bind, ret. simpl. reflexivity.
Qed.

Lemma stage_insert_eq env ctx q r w :
  stage_insert env ctx q r w
  = (Ok tt,
     if worth_caching env q r
     then snd (append_task ctx "insert"
                 (lavalink_insert_task (q_str q) (json_dumps (_raw r))
                    (time_now env)) None w)
     else w).
Proof.
  unfold stage_insert, worth_caching.
  destruct (is_subset set_lavalink (cache_level env) && negb (has_error r)
            && negb (q_is_local q)
            && negb (Nat.eqb (List.length (tracks r)) 0)); simpl;
    [|reflexivity].
  unfold try_except.
  destruct (has_shape (json_dumps (_raw r))); [|reflexivity].
  pose proof (append_task_ok ctx "insert"
                (lavalink_insert_task (q_str q) (json_dumps (_raw r))
                   (time_now env)) w (or_intror (or_introl eq_refl))) as Hok.
  destruct (append_task ctx "insert" _ None w) as [[[]|e] w'];
    simpl in *; [reflexivity|discriminate].
Qed.

Lemma load_failed_init : LoadResult_init load_failed_literal = Ok load_failed_result.
Proof. reflexivity. Qed.

Lemma worth_caching_failed env q : worth_caching env q load_failed_result = false.
Proof.
  unfold worth_caching. simpl. now rewrite andb_false_r.
Qed.

(** One unfolding of [fetch_track_fuel], the cache lookup done. *)
Lemma fetch_track_fuel_eq fuel env ctx q forced lazy w :
  fetch_track_fuel (S fuel) env ctx q forced lazy w
  = (rc <- (if lazy then ret (None, false)
            else if truthy (lookup_value env q forced) && negb forced then
              results <- lift (LoadResult_init
                                 (prepare_cached (lookup_value env q forced)
                                    (q_str q))) ;;
              if has_error results then
                rc <- fetch_track_fuel fuel env ctx q true false ;;
                ret (Some (fst rc), snd rc)
              else ret (Some results, false)
            else
              results <- call_load_tracks env (q_str q) ;;
              ret (results, true)) ;;
     results <- match fst rc with
                | Some r => ret r
                | None => lift (LoadResult_init load_failed_literal)
                end ;;
     stage_insert env ctx q results ;;;
     ret (results, snd rc)) (lookup_world env ctx q forced w).
Proof.
  cbn [fetch_track_fuel]. unfold bind at 1. now rewrite cache_lookup_eq.
Qed.

Arguments fetch_track_fuel : simpl never.

Lemma lookup_value_forced env q : lookup_value env q true = PNone.
Proof.
  unfold lookup_value, cache_hit. simpl.
  now rewrite andb_false_r.
Qed.

Lemma lookup_world_forced env ctx q w : lookup_world env ctx q true w = w.
Proof.
  unfold lookup_world. simpl. now rewrite andb_false_r.
Qed.

(** A forced fetch never calls itself: one unit of fuel is as good as
    any other. *)
Lemma fetch_track_forced_fuel n m env ctx q lazy w :
  fetch_track_fuel (S n) env ctx q true lazy w
  = fetch_track_fuel (S m) env ctx q true lazy w.
Proof.
  rewrite !fetch_track_fuel_eq, lookup_value_forced. simpl. reflexivity.
Qed.

(** Two units of fuel are enough for every call. *)
Lemma fetch_track_fuel_enough n env ctx q forced lazy w :
  fetch_track_fuel (S (S n)) env ctx q forced lazy w
  = fetch_track env ctx q forced lazy w.
Proof.
  unfold fetch_track. rewrite !fetch_track_fuel_eq.
  apply bind_congr.
  destruct lazy; [reflexivity|].
  destruct (truthy (lookup_value env q forced) && negb forced); [|reflexivity].
  apply bind_ext; intros r w1.
  destruct (has_error r); [|reflexivity].
  apply bind_congr. apply (fetch_track_forced_fuel n 0).
Qed.

Lemma after_read_calls table key w :
  provider_calls (after_read table key w) = provider_calls w.
Proof. reflexivity. Qed.

Lemma append_task_calls ctx event task _id w :
  provider_calls (snd (append_task ctx event task _id w)) = provider_calls w.
Proof.
  unfold provider_calls.
  destruct (append_task_frame ctx event task _id w) as (_ & _ & _ & ->).
  reflexivity.
Qed.

Lemma lookup_world_calls env ctx q forced w :
  provider_calls (lookup_world env ctx q forced w) = provider_calls w.
Proof.
  unfold lookup_world.
  destruct (is_subset set_lavalink (cache_level env) && negb forced
            && negb (q_is_local q)); [|reflexivity].
  destruct (cache_hit env q forced);
    now rewrite ?append_task_calls, after_read_calls.
Qed.

Lemma fetch_track_lazy env ctx q forced w :
  fetch_track env ctx q forced true w
  = (Ok (load_failed_result, false), lookup_world env ctx q forced w).
Proof.
  unfold fetch_track. rewrite fetch_track_fuel_eq.
  unfold bind, ret, lift. simpl.
  now rewrite stage_insert_eq, worth_caching_failed.
Qed.

Lemma fetch_track_silent env ctx q forced w :
  cache_hit env q forced = false ->
  provider_silent env (q_str q) = true ->
  fst (fetch_track env ctx q forced false w) = Ok (load_failed_result, true).
Proof.
  intros Hh Hs. unfold fetch_track. rewrite fetch_track_fuel_eq.
  unfold lookup_value. rewrite Hh. simpl.
  unfold call_load_tracks, provider_silent in *.
  unfold bind, ret, lift, emit, raise. simpl.
  destruct (load_tracks env (q_str q)) as [[r|]|[]]; try discriminate; simpl;
    now rewrite stage_insert_eq, worth_caching_failed.
Qed.

(** C10. [fetch_track] hands back a load result in every case in which
    it returns: where the code holds [None] in [results], the default
    result takes its place before the return.  With [lazy=True] the
    provider is not called, [called_api] is false and the default result
    comes back; with no cached value in use and a provider that returns
    nothing or raises a [KeyError], the default result comes back with
    [called_api] true.  The default result has the status [LOAD_FAILED]
    and no track. *)
Theorem fetch_track_default_result :
  forall (env : Env) (ctx : Context) (q : Query) (forced lazy : bool) (w : World),
    lazy = true
    \/ (cache_hit env q forced = false /\ provider_silent env (q_str q) = true) ->
    fst (fetch_track env ctx q forced lazy w)
    = Ok (load_failed_result, negb lazy)
    /\ (lazy = true ->
        provider_calls (snd (fetch_track env ctx q forced lazy w))
        = provider_calls w)
    /\ load_type load_failed_result = LOAD_FAILED
    /\ tracks load_failed_result = [].
Proof.
  intros env ctx q forced lazy w H.
  destruct lazy.
  - rewrite fetch_track_lazy. simpl. repeat split.
    intros _. apply lookup_world_calls.
  - destruct H as [H|[Hh Hs]]; [discriminate|].
    rewrite (fetch_track_silent _ _ _ _ _ Hh Hs). repeat split.
    discriminate.
Qed.

(** ** The forced re-fetch of an errored cache entry *)

Lemma stage_insert_calls env ctx q r w :
  provider_calls (snd (stage_insert env ctx q r w)) = provider_calls w.
Proof.
  rewrite stage_insert_eq. simpl.
  destruct (worth_caching env q r); now rewrite ?append_task_calls.
Qed.

Lemma call_load_tracks_calls env query w :
  provider_calls (snd (call_load_tracks env query w)) = S (provider_calls w).
Proof.
  unfold call_load_tracks, bind, emit, ret, raise. simpl.
  destruct (load_tracks env query) as [r|[]]; reflexivity.
Qed.

Lemma fetch_track_forced_calls n env ctx q w :
  provider_calls (snd (fetch_track_fuel (S n) env ctx q true false w))
  = S (provider_calls w).
Proof.
  rewrite fetch_track_fuel_eq, lookup_value_forced, lookup_world_forced.
  simpl. unfold bind at 1. unfold bind at 1.
  pose proof (call_load_tracks_calls env (q_str q) w) as Hc.
  destruct (call_load_tracks env (q_str q) w) as [[r|e] w1]; simpl in *;
    [|assumption].
  unfold ret at 1.
  destruct r as [r|]; unfold bind, ret, lift; simpl;
    rewrite stage_insert_eq; simpl;
    match goal with
    | |- context [worth_caching ?e ?q ?r] => destruct (worth_caching e q r)
    end; now rewrite ?append_task_calls.
Qed.

Lemma cache_hit_value env q :
  cache_hit env q false = true ->
  truthy (lookup_value env q false) = true
  /\ is_dict (lookup_value env q false) = true.
Proof.
  intros H. unfold lookup_value. rewrite H. unfold cache_hit in H.
  apply andb_prop in H. destruct H as [_ H].
  destruct (store_fetch_one env "lavalink" (q_str q)) as [[v u]|e];
    [|discriminate].
  now apply andb_prop in H.
Qed.

(** The run of a non-forced, non-lazy fetch whose cached entry decodes
    to an errored result. *)
Lemma fetch_track_errored_hit env ctx q w r :
  cache_hit env q false = true ->
  LoadResult_init (prepare_cached (lookup_value env q false) (q_str q)) = Ok r ->
  has_error r = true ->
  fetch_track env ctx q false false w
  = (rc <- fetch_track env ctx q true false ;;
     stage_insert env ctx q (fst rc) ;;;
     ret rc) (lookup_world env ctx q false w).
Proof.
  intros Hh Hr He. unfold fetch_track at 1. rewrite fetch_track_fuel_eq.
  destruct (cache_hit_value _ _ Hh) as [Ht _]. rewrite Ht. simpl.
  unfold bind at 2. unfold lift at 1. rewrite Hr, He.
  unfold fetch_track. unfold bind.
  rewrite (fetch_track_forced_fuel 1 0).
  destruct (fetch_track_fuel 1 env ctx q true false
              (lookup_world env ctx q false w)) as [[[r' c]|e] w1];
    [|reflexivity].
  unfold ret. simpl.
  destruct (stage_insert env ctx q r' w1) as [[[]|e] w2]; reflexivity.
Qed.

(** C5, as the code has it.  A non-forced and non-lazy fetch, with the
    playable-track scope on and a query that is not local, for which the
    cache answers with a non-empty dict that decodes to an errored
    result, calls the provider once, through a fetch with
    [forced=True], and returns what that forced fetch returns (or raises
    what it raises), never the stale cached result. *)
Theorem fetch_track_refetches_errored_hit :
  forall (env : Env) (ctx : Context) (q : Query) (w : World) (r : LoadResult),
    cache_hit env q false = true ->
    LoadResult_init (prepare_cached (lookup_value env q false) (q_str q)) = Ok r ->
    has_error r = true ->
    fst (fetch_track env ctx q false false w)
    = fst (fetch_track env ctx q true false (lookup_world env ctx q false w))
    /\ provider_calls (snd (fetch_track env ctx q false false w))
       = S (provider_calls w).
Proof.
  intros env ctx q w r Hh Hr He.
  rewrite (fetch_track_errored_hit _ _ _ _ _ Hh Hr He).
  pose proof (fetch_track_forced_calls 1 env ctx q
                (lookup_world env ctx q false w)) as Hc.
  rewrite lookup_world_calls in Hc. fold (fetch_track env ctx q true false) in Hc.
  unfold bind.
  destruct (fetch_track env ctx q true false (lookup_world env ctx q false w))
    as [[rc|e] w1]; simpl in *; [|auto].
  pose proof (stage_insert_calls env ctx q (fst rc) w1) as Hs.
  rewrite stage_insert_eq in *. simpl in *. unfold ret. simpl.
  split; [reflexivity|congruence].
Qed.

(** ** What a fetch stages for insertion *)


Lemma inserts_of_lookup_world env ctx q forced w :
  inserts_of ctx (lookup_world env ctx q forced w) = inserts_of ctx w.
Proof.
  unfold lookup_world.
  destruct (is_subset set_lavalink (cache_level env) && negb forced
            && negb (q_is_local q)); [|reflexivity].
  destruct (cache_hit env q forced); [|reflexivity].
  now rewrite inserts_of_append_update.
Qed.


(** The task a fetch of [q] stages for the result [r]. *)
Lemma inserts_of_stage_insert env ctx q r w :
  inserts_of ctx (snd (stage_insert env ctx q r w))
  = inserts_of ctx w
    ++ (if worth_caching env q r
        then [lavalink_insert_task (q_str q) (json_dumps (_raw r)) (time_now env)]
        else []).
Proof.
  rewrite stage_insert_eq. simpl.
  destruct (worth_caching env q r).
  - apply inserts_of_append_insert.
  - now rewrite app_nil_r.
Qed.





(** ** Runs of the playable-track fetch *)

Lemma fetch_track_default_result_witness :
  (true = true
   \/ (cache_hit silent_env sample_query false = false
       /\ provider_silent silent_env (q_str sample_query) = true))
  /\ fst (fetch_track silent_env sample_ctx sample_query false false empty_world)
     = Ok (load_failed_result, true)
  /\ fst (fetch_track sample_env sample_ctx sample_query false true empty_world)
     = Ok (load_failed_result, false).
Proof.
  split; [left; reflexivity|]. split.
  - apply (fetch_track_default_result silent_env sample_ctx sample_query
             false false empty_world).
    right. split; reflexivity.
  - apply (fetch_track_default_result sample_env sample_ctx sample_query
             false true empty_world).
    left. reflexivity.
Defined.

(** C5 as stated fails for a lazy fetch: with an errored entry in the
    cache and [lazy=True], [fetch_track] calls no provider and returns
    the default result, not the result of a forced fetch. *)
Lemma lazy_fetch_skips_refetch :
  cache_hit stale_env sample_query false = true
  /\ (exists r,
        LoadResult_init (prepare_cached (lookup_value stale_env sample_query false)
                           (q_str sample_query)) = Ok r
        /\ has_error r = true)
  /\ provider_calls
       (snd (fetch_track stale_env sample_ctx sample_query false true empty_world))
     = O
  /\ fst (fetch_track stale_env sample_ctx sample_query false true empty_world)
     <> fst (fetch_track stale_env sample_ctx sample_query true false
               (lookup_world stale_env sample_ctx sample_query false empty_world)).
Proof.
  split; [reflexivity|]. split; [eexists; split; reflexivity|].
  split; [reflexivity|]. vm_compute. discriminate.
Qed.

Lemma fetch_track_refetches_errored_hit_witness :
  cache_hit stale_env sample_query false = true
  /\ fst (fetch_track stale_env sample_ctx sample_query false false empty_world)
     = fst (fetch_track stale_env sample_ctx sample_query true false
              (lookup_world stale_env sample_ctx sample_query false empty_world))
  /\ provider_calls
       (snd (fetch_track stale_env sample_ctx sample_query false false empty_world))
     = 1%nat.
Proof.
  split; [reflexivity|].
  apply (fetch_track_refetches_errored_hit stale_env sample_ctx sample_query
           empty_world
           (mkLoadResult LOAD_FAILED []
              (PDict [("loadType", PStr "LOAD_FAILED"); ("playlistInfo", PDict []);
                      ("tracks", PList []);
                      ("query", PStr "https://youtu.be/one")])));
    reflexivity.
Defined.



(** ** Frame rules

    What the resolution of a track leaves alone, for any relation that
    is a preorder and that the staging of tasks and the events of the
    collaborators respect. *)

Section Frame.
Variable R : World -> World -> Prop.
Hypothesis R_refl : forall w, R w w.
Hypothesis R_trans : forall a b c, R a b -> R b c -> R a c.
Hypothesis R_emit : forall e w, collab_event e = true -> R w (snd (emit e w)).
Hypothesis R_tasks : forall t w, R w (snd (set_tasks t w)).

Lemma keeps_ret {A} (a : A) : keeps R (ret a).
Proof. intros w. apply R_refl. Qed.

Lemma keeps_raise {A} e : keeps R (@raise A e).
Proof. intros w. apply R_refl. Qed.

Lemma keeps_lift {A} (r : res A) : keeps R (lift r).
Proof. intros w. apply R_refl. Qed.

Lemma keeps_get_tasks : keeps R get_tasks.
Proof. intros w. apply R_refl. Qed.

Lemma keeps_set_tasks t : keeps R (set_tasks t).
Proof. intros w. apply R_tasks. Qed.

Lemma keeps_tasks_index k : keeps R (tasks_index k).
Proof.
  intros w. unfold tasks_index.
  destruct (tasks_get k (_tasks w)); apply R_refl.
Qed.

Lemma keeps_emit e : collab_event e = true -> keeps R (emit e).
Proof. intros H w. now apply R_emit. Qed.

Lemma keeps_bind {A B} (m : M A) (f : A -> M B) :
  keeps R m -> (forall a, keeps R (f a)) -> keeps R (bind m f).
Proof.
  intros Hm Hf w. unfold bind. specialize (Hm w).
  destruct (m w) as [[a|e] w']; simpl in *; [|assumption].
  eapply R_trans; [eassumption|apply Hf].
Qed.

Lemma keeps_try {A} (m : M A) (h : exn -> M A) :
  keeps R m -> (forall e, keeps R (h e)) -> keeps R (try_except m h).
Proof.
  intros Hm Hh w. unfold try_except. specialize (Hm w).
  destruct (m w) as [[a|e] w']; simpl in *; [assumption|].
  eapply R_trans; [eassumption|apply Hh].
Qed.

Ltac frame :=
  repeat match goal with
         | |- keeps _ (ret _) => apply keeps_ret
         | |- keeps _ (raise _) => apply keeps_raise
         | |- keeps _ (lift _) => apply keeps_lift
         | |- keeps _ get_tasks => apply keeps_get_tasks
         | |- keeps _ (set_tasks _) => apply keeps_set_tasks
         | |- keeps _ (tasks_index _) => apply keeps_tasks_index
         | |- keeps _ (emit _) => apply keeps_emit; reflexivity
         | |- keeps _ (bind _ _) => apply keeps_bind; [|intros ?]
         | |- keeps _ (try_except _ _) => apply keeps_try; [|intros ?]
         | |- keeps _ (if ?c then _ else _) => destruct c
         | |- keeps _ (match ?x with _ => _ end) => destruct x
         | |- _ => progress cbv zeta
         end.

Lemma keeps_append_task ctx event task _id :
  keeps R (append_task ctx event task _id).
Proof. unfold append_task. frame. Qed.

Lemma keeps_fetch_one env table key : keeps R (fetch_one env table key).
Proof. unfold fetch_one. frame. Qed.

Lemma keeps_cache_read env table key : keeps R (cache_read env table key).
Proof. unfold cache_read. frame. apply keeps_fetch_one. Qed.

Lemma keeps_call_load_tracks env query : keeps R (call_load_tracks env query).
Proof. unfold call_load_tracks. frame. Qed.

Lemma keeps_cache_lookup env ctx q forced :
  keeps R (cache_lookup env ctx q forced).
Proof.
  unfold cache_lookup. frame;
    first [apply keeps_cache_read | apply keeps_append_task].
Qed.

Lemma keeps_stage_insert env ctx q r : keeps R (stage_insert env ctx q r).
Proof. unfold stage_insert. frame; apply keeps_append_task. Qed.

Lemma keeps_fetch_track_fuel fuel env ctx q forced lazy :
  keeps R (fetch_track_fuel fuel env ctx q forced lazy).
Proof.
  revert q forced lazy.
  induction fuel as [|fuel IH]; intros q forced lazy;
    unfold fetch_track_fuel; fold fetch_track_fuel; [apply keeps_raise|].
  frame;
    first [apply keeps_cache_lookup | apply keeps_call_load_tracks
          | apply keeps_stage_insert | apply IH].
Qed.

Lemma keeps_fetch_track env ctx q forced lazy :
  keeps R (fetch_track env ctx q forced lazy).
Proof. apply keeps_fetch_track_fuel. Qed.

Lemma keeps_youtube_first_time env ctx ti level :
  keeps R (_youtube_first_time_query env ctx ti level).
Proof. unfold _youtube_first_time_query. frame; apply keeps_append_task. Qed.

Lemma keeps_resolve_url env ctx ti val : keeps R (resolve_url env ctx ti val).
Proof.
  unfold resolve_url, unlock, update_embed. frame;
    first [apply keeps_append_task | apply keeps_cache_lookup
          | apply keeps_stage_insert | apply keeps_call_load_tracks
          | apply keeps_fetch_track].
Qed.

Lemma keeps_resolve_track env ctx ti : keeps R (resolve_track env ctx ti).
Proof.
  unfold resolve_track. frame;
    first [apply keeps_cache_read | apply keeps_youtube_first_time
          | apply keeps_append_task | apply keeps_resolve_url].
Qed.

Lemma keeps_spotify_fetch_tracks env qt uri :
  keeps R (_spotify_fetch_tracks env qt uri).
Proof. unfold _spotify_fetch_tracks. frame. Qed.

Lemma keeps_first_time_body env ctx nt sk level total track st :
  keeps R (first_time_body env ctx nt sk level total track st).
Proof.
  unfold first_time_body, notify_user. frame;
    first [apply keeps_cache_read | apply keeps_youtube_first_time
          | apply keeps_append_task].
Qed.

Lemma keeps_first_time_loop env ctx nt sk level total tracks st :
  keeps R (first_time_loop env ctx nt sk level total tracks st).
Proof.
  revert st. induction tracks as [|t r IH]; intros st; simpl.
  - apply keeps_ret.
  - apply keeps_bind; [apply keeps_first_time_body|intros st'; apply IH].
Qed.
End Frame.

(** The frame rules at work: [kframe R solver] proves that a coroutine
    keeps [R], [solver] proving that [R] is a preorder that staging and
    the collaborators' events respect. *)
Ltac kframe R solver :=
  repeat match goal with
         | |- keeps _ (ret _) => apply (keeps_ret R); solver
         | |- keeps _ (raise _) => apply (keeps_raise R); solver
         | |- keeps _ (lift _) => apply (keeps_lift R); solver
         | |- keeps _ (emit _) => apply (keeps_emit R); [solver|reflexivity]
         | |- keeps _ (bind _ _) => apply (keeps_bind R); [solver| |intros ?]
         | |- keeps _ (try_except _ _) =>
             apply (keeps_try R); [solver| |intros ?]
         | |- keeps _ (append_task _ _ _ _) =>
             apply (keeps_append_task R); solver
         | |- keeps _ (cache_read _ _ _) => apply (keeps_cache_read R); solver
         | |- keeps _ (fetch_track _ _ _ _ _) =>
             apply (keeps_fetch_track R); solver
         | |- keeps _ (_youtube_first_time_query _ _ _ _) =>
             apply (keeps_youtube_first_time R); solver
         | |- keeps _ (resolve_url _ _ _ _) => apply (keeps_resolve_url R); solver
         | |- keeps _ (resolve_track _ _ _) =>
             apply (keeps_resolve_track R); solver
         | |- keeps _ (_spotify_fetch_tracks _ _ _) =>
             apply (keeps_spotify_fetch_tracks R); solver
         | |- keeps _ (first_time_loop _ _ _ _ _ _ _ _) =>
             apply (keeps_first_time_loop R); solver
         | |- keeps _ (if ?c then _ else _) => destruct c
         | |- keeps _ (match ?x with _ => _ end) => destruct x
         | |- _ => progress cbv zeta
         end.

Lemma extends_refl w : extends w w.
Proof. exists []. reflexivity. Qed.

Lemma extends_trans a b c : extends a b -> extends b c -> extends a c.
Proof.
  intros [l1 H1] [l2 H2]. exists (l2 ++ l1). rewrite H2, H1.
  now rewrite app_assoc.
Qed.

Lemma extends_emit e w : collab_event e = true -> extends w (snd (emit e w)).
Proof. intros _. exists [e]. reflexivity. Qed.

Lemma extends_tasks t w : extends w (snd (set_tasks t w)).
Proof. exists []. reflexivity. Qed.

Lemma extends_in e w w' : extends w w' -> In e (trace w) -> In e (trace w').
Proof. intros [l ->] H. apply in_or_app. now right. Qed.





Ltac by_extends :=
  first [exact extends_refl | exact extends_trans | exact extends_emit
        | exact extends_tasks].


(** ** A cache read that fails is a cache miss *)

Lemma cache_read_no_entry env table key w :
  no_entry (store_fetch_one env table key) = true ->
  cache_read env table key w = (Ok PNone, after_read table key w).
Proof.
  intros H. rewrite cache_read_eq.
  destruct (store_fetch_one env table key) as [[[] u]|e];
    try discriminate; reflexivity.
Qed.

Lemma spotify_first_time_calls env ctx qt uri nt sk level w :
  In (EvSpotifyFetchTracks qt uri)
    (trace (snd (_spotify_first_time_query env ctx qt uri nt sk level w))).
Proof.
  unfold _spotify_first_time_query, _spotify_fetch_tracks.
  unfold bind at 1. unfold bind at 1. unfold emit at 1.
  set (w1 := mkWorld (_tasks w) (queue w) (current w) (draws w)
               (EvSpotifyFetchTracks qt uri :: trace w)).
  unfold lift at 1.
  destruct (spotify_fetch_tracks env qt uri) as [ts|e]; [|now left].
  match goal with
  | |- In _ (trace (snd (?m w1))) =>
      assert (H : keeps extends m)
  end.
  { kframe extends by_extends. }
  apply (extends_in _ w1); [apply H|now left].
Qed.

Lemma youtube_first_time_calls env ctx ti level w :
  In (EvYoutubeCall ti)
    (trace (snd (_youtube_first_time_query env ctx ti level w))).
Proof.
  unfold _youtube_first_time_query.
  unfold bind at 1. unfold emit at 1.
  set (w1 := mkWorld (_tasks w) (queue w) (current w) (draws w)
               (EvYoutubeCall ti :: trace w)).
  match goal with
  | |- In _ (trace (snd (?m w1))) => assert (H : keeps extends m)
  end.
  { kframe extends by_extends. }
  apply (extends_in _ w1); [apply H|now left].
Qed.

Lemma cache_hit_no_entry env q forced :
  no_entry (store_fetch_one env "lavalink" (q_str q)) = true ->
  cache_hit env q forced = false.
Proof.
  intros H. unfold cache_hit.
  destruct (store_fetch_one env "lavalink" (q_str q)) as [[[] u]|e];
    try discriminate; simpl; apply andb_false_r.
Qed.

Lemma fetch_track_no_entry env ctx q lazy w :
  is_subset set_lavalink (cache_level env) = true ->
  q_is_local q = false ->
  no_entry (store_fetch_one env "lavalink" (q_str q)) = true ->
  fetch_track env ctx q false lazy w
  = fetch_track env ctx q true lazy (after_read "lavalink" (q_str q) w).
Proof.
  intros Hc Hl Hn. unfold fetch_track. rewrite !fetch_track_fuel_eq.
  rewrite lookup_value_forced, lookup_world_forced.
  unfold lookup_value, lookup_world.
  rewrite (cache_hit_no_entry _ _ _ Hn), Hc, Hl. simpl. reflexivity.
Qed.

Lemma spotify_query_no_entry env ctx uri sk nt w :
  is_subset set_spotify (cache_level env) = true ->
  no_entry (store_fetch_one env "spotify" ("spotify:track:" ++ uri)%string) = true ->
  spotify_query env ctx "track" uri sk nt w
  = _spotify_first_time_query env ctx "track" uri nt sk (cache_level env)
      (after_read "spotify" ("spotify:track:" ++ uri)%string w).
Proof.
  intros Hc Hn. unfold spotify_query. rewrite Hc. simpl.
  unfold bind at 1. now rewrite (cache_read_no_entry _ _ _ _ Hn).
Qed.

Lemma youtube_query_no_entry env ctx ti w :
  is_subset set_youtube (cache_level env) = true ->
  no_entry (store_fetch_one env "youtube" ti) = true ->
  youtube_query env ctx ti w
  = _youtube_first_time_query env ctx ti (cache_level env)
      (after_read "youtube" ti w).
Proof.
  intros Hc Hn. unfold youtube_query. rewrite Hc.
  unfold bind at 1. now rewrite (cache_read_no_entry _ _ _ _ Hn).
Qed.

Lemma resolve_track_no_entry env ctx ti w :
  is_subset set_youtube (cache_level env) = true ->
  no_entry (store_fetch_one env "youtube" ti) = true ->
  resolve_track env ctx ti w
  = (val <- _youtube_first_time_query env ctx ti (cache_level env) ;;
     resolve_url env ctx ti val) (after_read "youtube" ti w).
Proof.
  intros Hc Hn. unfold resolve_track. rewrite Hc.
  unfold bind at 1. now rewrite (cache_read_no_entry _ _ _ _ Hn).
Qed.

Lemma bind_first_in {A B} (m : M A) (f : A -> M B) e w :
  (forall a, keeps extends (f a)) ->
  In e (trace (snd (m w))) -> In e (trace (snd (bind m f w))).
Proof.
  intros Hf Hin. unfold bind.
  destruct (m w) as [[a|x] w1]; simpl in *; [|assumption].
  apply (extends_in _ w1); [apply Hf|assumption].
Qed.

(** C3, as the code has it.  At each of the four guarded reads, a read
    that raises (or that finds nothing) propagates nothing and is
    followed by exactly what follows a miss: [spotify_query] goes on
    with the Spotify listing, [youtube_query] and the Stage B lookup of
    [spotify_enqueue] with the YouTube API call, and [fetch_track] with
    what a fetch that skips the cache does, which is the provider call
    unless the fetch is lazy. *)
Theorem cache_fault_is_a_miss :
  forall (env : Env) (ctx : Context),
    (forall uri sk nt w,
        is_subset set_spotify (cache_level env) = true ->
        no_entry (store_fetch_one env "spotify" ("spotify:track:" ++ uri)%string)
        = true ->
        spotify_query env ctx "track" uri sk nt w
        = _spotify_first_time_query env ctx "track" uri nt sk (cache_level env)
            (after_read "spotify" ("spotify:track:" ++ uri)%string w)
        /\ In (EvSpotifyFetchTracks "track" uri)
             (trace (snd (spotify_query env ctx "track" uri sk nt w))))
    /\ (forall ti w,
           is_subset set_youtube (cache_level env) = true ->
           no_entry (store_fetch_one env "youtube" ti) = true ->
           youtube_query env ctx ti w
           = _youtube_first_time_query env ctx ti (cache_level env)
               (after_read "youtube" ti w)
           /\ In (EvYoutubeCall ti) (trace (snd (youtube_query env ctx ti w)))
           /\ resolve_track env ctx ti w
              = (val <- _youtube_first_time_query env ctx ti (cache_level env) ;;
                 resolve_url env ctx ti val) (after_read "youtube" ti w)
           /\ In (EvYoutubeCall ti) (trace (snd (resolve_track env ctx ti w))))
    /\ (forall q lazy w,
           is_subset set_lavalink (cache_level env) = true ->
           q_is_local q = false ->
           no_entry (store_fetch_one env "lavalink" (q_str q)) = true ->
           fetch_track env ctx q false lazy w
           = fetch_track env ctx q true lazy (after_read "lavalink" (q_str q) w)
           /\ (lazy = false ->
               provider_calls (snd (fetch_track env ctx q false lazy w))
               = S (provider_calls w))).
Proof.
  intros env ctx. split; [|split].
  - intros uri sk nt w Hc Hn.
    rewrite (spotify_query_no_entry _ _ _ _ _ _ Hc Hn).
    split; [reflexivity|apply spotify_first_time_calls].
  - intros ti w Hc Hn.
    rewrite (youtube_query_no_entry _ _ _ _ Hc Hn).
    rewrite (resolve_track_no_entry _ _ _ _ Hc Hn).
    repeat split.
    + apply youtube_first_time_calls.
    + apply bind_first_in.
      * intros val. kframe extends by_extends.
      * apply youtube_first_time_calls.
  - intros q lazy w Hc Hl Hn.
    rewrite (fetch_track_no_entry _ _ _ _ _ Hc Hl Hn).
    split; [reflexivity|]. intros ->.
    unfold fetch_track. now rewrite fetch_track_forced_calls.
Qed.

Lemma cache_fault_is_a_miss_witness :
  (is_subset set_spotify (cache_level faulty_env) = true
   /\ is_subset set_youtube (cache_level faulty_env) = true
   /\ is_subset set_lavalink (cache_level faulty_env) = true
   /\ store_fetch_one faulty_env "spotify" "spotify:track:abc"
      = Raise (OtherError "OperationalError")
   /\ store_fetch_one faulty_env "youtube" "one"
      = Raise (OtherError "OperationalError")
   /\ store_fetch_one faulty_env "lavalink" (q_str sample_query)
      = Raise (OtherError "OperationalError"))
  /\ In (EvSpotifyFetchTracks "track" "abc")
       (trace (snd (spotify_query faulty_env sample_ctx "track" "abc" false true
                      empty_world)))
  /\ In (EvYoutubeCall "one")
       (trace (snd (youtube_query faulty_env sample_ctx "one" empty_world)))
  /\ In (EvYoutubeCall "one")
       (trace (snd (resolve_track faulty_env sample_ctx "one" empty_world)))
  /\ provider_calls
       (snd (fetch_track faulty_env sample_ctx sample_query false false empty_world))
     = 1%nat.
Proof.
  split; [repeat split|].
  destruct (cache_fault_is_a_miss faulty_env sample_ctx) as (Hs & Hy & Hl).
  destruct (Hs "abc" false true empty_world eq_refl eq_refl) as (_ & H1).
  destruct (Hy "one" empty_world eq_refl eq_refl) as (_ & H2 & _ & H3).
  destruct (Hl sample_query false empty_world eq_refl eq_refl eq_refl)
    as (_ & H4).
  split; [exact H1|]. split; [exact H2|]. split; [exact H3|].
  exact (H4 eq_refl).
Defined.

(** C3 as stated fails for a lazy fetch: with a cache store that raises
    and [lazy=True], [fetch_track] swallows the fault and returns the
    default result, but does not go on to the provider. *)
Lemma lazy_fetch_skips_provider_on_fault :
  is_subset set_lavalink (cache_level faulty_env) = true
  /\ store_fetch_one faulty_env "lavalink" (q_str sample_query)
     = Raise (OtherError "OperationalError")
  /\ fetch_track faulty_env sample_ctx sample_query false true empty_world
     = (Ok (load_failed_result, false),
        after_read "lavalink" (q_str sample_query) empty_world)
  /\ provider_calls
       (snd (fetch_track faulty_env sample_ctx sample_query false true empty_world))
     = O.
Proof. repeat split. Qed.

(** ** The enqueue loop: what one turn does after the resolution *)






(** ** The enqueue loop when nothing resolves *)














(** ** The content filter and the empty batch *)












(** ** Progress notifications *)


(** ** The autoplay selector *)

Lemma random_choice_eq env tracks default w :
  random_choice env tracks default w
  = (Ok (nth (Nat.modulo (rng env (draws w)) (List.length tracks)) tracks default),
     mkWorld (_tasks w) (queue w) (current w) (S (draws w))
       (EvChoice (Nat.modulo (rng env (draws w)) (List.length tracks)) :: trace w)).
Proof. reflexivity. Qed.


(** One turn of the redrawing loop with more than one try left. *)
Lemma select_loop_step env n tracks default w :
  (0 < n)%nat ->
  select_loop env (S n) tracks default w
  = let t := nth (Nat.modulo (rng env (draws w)) (List.length tracks)) tracks
               default in
    let w1 := mkWorld (_tasks w) (queue w) (current w) (S (draws w))
                (EvChoice (Nat.modulo (rng env (draws w)) (List.length tracks))
                 :: trace w) in
    let asked := q_valid (process_input_track env t)
                 && negb (q_is_local (process_input_track env t)
                          && negb (q_local_exists (process_input_track env t))) in
    let w2 := if asked then snd (emit (EvIsAllowed t (is_allowed env t)) w1)
              else w1 in
    if acceptable env t then (Ok t, w2)
    else select_loop env n tracks default w2.
Proof.
  intros Hn. cbn [select_loop].
  replace (Nat.leb n 0) with false by (symmetry; apply Nat.leb_gt; exact Hn).
  unfold bind at 1. rewrite random_choice_eq. cbv zeta.
  unfold acceptable.
  destruct (q_valid (process_input_track env _)); cbn [negb andb];
    [|reflexivity].
  destruct (q_is_local (process_input_track env _)
            && negb (q_local_exists (process_input_track env _)));
    cbn [negb andb]; [reflexivity|].
  unfold call_is_allowed, bind, emit, ret. cbn [fst snd].
  destruct (is_allowed env _); reflexivity.
Qed.



Lemma autoplay_enqueue_spec t w :
  fst (autoplay_enqueue t w) = Ok tt
  /\ draws (snd (autoplay_enqueue t w)) = draws w
  /\ In (EvEnqueue (mkTrack (track_raw t) true))
       (trace (snd (autoplay_enqueue t w))).
Proof.
  unfold autoplay_enqueue, bind, player_add, dispatch, emit, get_current,
    player_play, ret.
  cbn [fst snd current queue draws trace].
  destruct (current w); cbn [fst snd draws trace].
  - split; [reflexivity|]. split; [reflexivity|]. right. now left.
  - destruct (queue w ++ [mkTrack (track_raw t) true]); cbn [fst snd draws trace];
      (split; [reflexivity|]; split; [reflexivity|]; right; right; now left).
Qed.




(** * Further properties of the write queue *)



Lemma route_tasks_inert env a t d w :
  inert a = true -> route_tasks env a t d w = (Ok tt, w).
Proof.
  unfold inert. intros H. apply andb_prop in H. destruct H as [Hi Hu].
  apply negb_true_iff in Hi. apply negb_true_iff in Hu.
  unfold route_tasks. rewrite Hi, Hu. simpl.
  destruct (truthy d); reflexivity.
Qed.

(** A coroutine that does nothing. *)
Lemma star_inert env group :
  match group with
  | [a; _; _] => inert a = true
  | _ => True
  end ->
  match route_tasks_star env group with
  | Ok c => forall w, c w = (Ok tt, w)
  | Raise _ => True
  end.
Proof.
  destruct group as [|a [|t [|d [|x r]]]]; simpl; intros H; auto.
  intros w. now apply route_tasks_inert.
Qed.

Lemma make_coroutines_inert env groups :
  Forall (fun group => match group with
                       | [a; _; _] => inert a = true
                       | _ => True
                       end) groups ->
  match make_coroutines env groups with
  | Ok cs => Forall (fun c => forall w, c w = (Ok tt, w)) cs
  | Raise _ => True
  end.
Proof.
  induction 1 as [|g r Hg Hr IH]; simpl; [constructor|].
  pose proof (star_inert env g Hg) as Hs.
  destruct (route_tasks_star env g); [|exact I].
  destruct (make_coroutines env r); [|exact I].
  constructor; assumption.
Qed.

Lemma gather_inert cs w :
  Forall (fun c : M unit => forall w, c w = (Ok tt, w)) cs ->
  gather cs w = (Ok tt, w).
Proof.
  intros H. revert w. induction H as [|c r Hc Hr IH]; intros w; simpl.
  - reflexivity.
  - rewrite Hc. simpl. apply IH.
Qed.

Lemma run_coroutines_inert env groups w :
  Forall (fun group => match group with
                       | [a; _; _] => inert a = true
                       | _ => True
                       end) groups ->
  snd (run_coroutines env groups w) = w.
Proof.
  intros H. unfold run_coroutines, bind, lift.
  pose proof (make_coroutines_inert env groups H) as Hm.
  destruct (make_coroutines env groups) as [cs|e]; [|reflexivity].
  now rewrite gather_inert.
Qed.

Lemma collect_pending_lists t :
  forall u i g u' i' g',
    Forall (fun v => is_list v = true) u ->
    Forall (fun v => is_list v = true) i ->
    Forall (fun v => is_list v = true) g ->
    collect_pending t (u, i, g) = (u', i', g') ->
    Forall (fun v => is_list v = true) u'
    /\ Forall (fun v => is_list v = true) i'
    /\ Forall (fun v => is_list v = true) g'.
Proof.
  induction t as [|[k task] r IH]; intros u i g u' i' g' Hu Hi Hg; simpl.
  - intros H. inversion H; subst. auto.
  - apply IH; apply Forall_app; split; auto; repeat constructor.
Qed.

Lemma list_group_inert group :
  Forall (fun v => is_list v = true) group ->
  match group with
  | [a; _; _] => inert a = true
  | _ => True
  end.
Proof.
  destruct group as [|a [|t [|d [|x r]]]]; auto.
  intros H. inversion H; subst. destruct a; try discriminate. reflexivity.
Qed.

(** X2. [run_all_pending_tasks] writes nothing: whatever is pending, it
    empties [_tasks], calls no method of the store and returns.  Each
    category of its [tasks] holds one list per request, and these lists
    are what [route_tasks] gets as its [action_type], [table] and
    [data]. *)
Theorem run_all_pending_tasks_drops_writes :
  forall (env : Env) (w : World),
    run_all_pending_tasks env w = (Ok tt, with_tasks [] w).
Proof.
  intros env w. apply pair_eq; [apply run_all_pending_tasks_ok|].
  unfold run_all_pending_tasks. rewrite swallow_snd.
  unfold bind at 1, get_tasks at 1.
  destruct (collect_pending (_tasks w) ([], [], [])) as [[u i] g] eqn:Hc.
  destruct (collect_pending_lists _ _ _ _ _ _ _
              (Forall_nil _) (Forall_nil _) (Forall_nil _) Hc)
    as (Hu & Hi & Hg).
  unfold bind at 1, set_tasks at 1.
  rewrite run_coroutines_inert; [reflexivity|].
  repeat constructor; apply list_group_inert; assumption.
Qed.

Lemma tasks_del_not_mem k t : tasks_mem k t = false -> tasks_del k t = t.
Proof.
  induction t as [|[k' v] r IH]; simpl; [reflexivity|].
  destruct (k' =? k); simpl; [discriminate|].
  intros H. now rewrite IH.
Qed.

Lemma tasks_get_del_other k k' t :
  k' <> k -> tasks_get k' (tasks_del k t) = tasks_get k' t.
Proof.
  intros Hne. induction t as [|[k0 v] r IH]; simpl; [reflexivity|].
  destruct (k0 =? k) eqn:E.
  - apply Z.eqb_eq in E. subst.
    destruct (k =? k') eqn:E'; [apply Z.eqb_eq in E'; congruence|reflexivity].
  - simpl. destruct (k0 =? k'); [reflexivity|exact IH].
Qed.

Lemma tasks_mem_in k t : tasks_mem k t = true <-> In k (map fst t).
Proof.
  induction t as [|[k' v] r IH]; simpl; [split; [discriminate|contradiction]|].
  rewrite orb_true_iff, IH, Z.eqb_eq. tauto.
Qed.

Lemma tasks_mem_del_unique k t :
  NoDup (map fst t) -> tasks_mem k (tasks_del k t) = false.
Proof.
  induction t as [|[k' v] r IH]; simpl; intros H; [reflexivity|].
  inversion H as [|? ? Hn Hr]; subst.
  destruct (k' =? k) eqn:E.
  - apply Z.eqb_eq in E. subst.
    destruct (tasks_mem k r) eqn:Hm; [|reflexivity].
    apply tasks_mem_in in Hm. contradiction.
  - simpl. rewrite E. simpl. now apply IH.
Qed.

Lemma with_tasks_same w : with_tasks (_tasks w) w = w.
Proof. destruct w; reflexivity. Qed.

Lemma tuple_group_inert group :
  Forall (fun v => is_tuple v = true) group ->
  match group with
  | [a; _; _] => inert a = true
  | _ => True
  end.
Proof.
  destruct group as [|a [|t [|d [|x r]]]]; auto.
  intros H. inversion H; subst. destruct a; try discriminate. reflexivity.
Qed.

(** The flush of the request of a context, when what is staged for it
    are tuples (as every caller of [append_task] stages them): the
    pending set of the request is removed, the pending sets of the other
    requests stay, no method of the store is called, and the call
    returns. *)
Lemma run_tasks_context_eq env c w :
  Forall (fun v => is_tuple v = true) (staged_ops (message_id c) w) ->
  run_tasks env (Some c) None w
  = (Ok tt, with_tasks (tasks_del (message_id c) (_tasks w)) w).
Proof.
  intros Hs. apply pair_eq; [apply run_tasks_ok_with_ctx|].
  unfold run_tasks. unfold bind at 1. cbn [ctx_message_id]. unfold ret at 1.
  unfold bind at 1, get_tasks at 1.
  destruct (tasks_mem (message_id c) (_tasks w)) eqn:Hm.
  - rewrite swallow_snd.
    unfold bind at 1. unfold ret at 1. unfold bind at 1, tasks_index at 1.
    unfold staged_ops in Hs.
    destruct (tasks_mem_get _ _ Hm) as [ts Hts]. rewrite Hts in *.
    unfold bind at 1, get_tasks at 1. unfold bind at 1, set_tasks at 1.
    rewrite run_coroutines_inert; [reflexivity|].
    apply Forall_app in Hs. destruct Hs as [Hu Hs].
    apply Forall_app in Hs. destruct Hs as [Hi Hg].
    repeat constructor; apply tuple_group_inert; assumption.
  - unfold ret. simpl. rewrite (tasks_del_not_mem _ _ Hm).
    now rewrite with_tasks_same.
Qed.

(** X3. The flush of the request of a context, when what is staged for
    it are tuples, as every caller of [append_task] stages them: the
    call returns, the pending set of the request is gone, the pending
    sets of the other requests are as they were, no method of the store
    has been called, and a second flush changes nothing. *)
Theorem run_tasks_context_flushes_once :
  forall (env : Env) (c : Context) (w : World),
    Forall (fun v => is_tuple v = true) (staged_ops (message_id c) w) ->
    keys_unique w ->
    let w1 := with_tasks (tasks_del (message_id c) (_tasks w)) w in
    run_tasks env (Some c) None w = (Ok tt, w1)
    /\ tasks_mem (message_id c) (_tasks w1) = false
    /\ (forall k, k <> message_id c ->
                  tasks_get k (_tasks w1) = tasks_get k (_tasks w))
    /\ store_calls w1 = store_calls w
    /\ run_tasks env (Some c) None w1 = (Ok tt, w1).
Proof.
  intros env c w Hs Hu w1.
  assert (Hm : tasks_mem (message_id c) (_tasks w1) = false)
    by (apply tasks_mem_del_unique; exact Hu).
  split; [now apply run_tasks_context_eq|].
  split; [exact Hm|].
  split; [intros k Hk; now apply tasks_get_del_other|].
  split; [reflexivity|].
  rewrite run_tasks_context_eq.
  - rewrite (tasks_del_not_mem _ _ Hm). now rewrite with_tasks_same.
  - unfold staged_ops. rewrite (tasks_get_not_mem _ _ Hm). constructor.
Qed.

Lemma run_tasks_context_flushes_once_witness :
  let w := snd ((append_task sample_ctx "update" (youtube_update_task "song") None ;;;
                 append_task sample_ctx "insert"
                   (youtube_insert_task "song" (PStr "url") 7) None ;;;
                 append_task (mkContext 9) "update" (youtube_update_task "other")
                   None) empty_world) in
  Forall (fun v => is_tuple v = true) (staged_ops (message_id sample_ctx) w)
  /\ keys_unique w
  /\ run_tasks sample_env (Some sample_ctx) None w
     = (Ok tt,
        with_tasks [(9, mkTaskSet [youtube_update_task "other"] [] [])] w).
Proof.
  intros w.
  assert (Hs : Forall (fun v => is_tuple v = true)
                 (staged_ops (message_id sample_ctx) w))
    by (repeat constructor).
  assert (Hu : keys_unique w).
  { unfold keys_unique. vm_compute.
    repeat (constructor; [simpl; intuition discriminate|]). constructor. }
  split; [exact Hs|]. split; [exact Hu|].
  exact (proj1 (run_tasks_context_flushes_once sample_env sample_ctx w Hs Hu)).
Defined.

Lemma tasks_get_set_other k k' v t :
  k' <> k -> tasks_get k' (tasks_set k v t) = tasks_get k' t.
Proof.
  intros Hne. induction t as [|[k0 v0] r IH]; simpl.
  - destruct (k =? k') eqn:E; [apply Z.eqb_eq in E; congruence|reflexivity].
  - destruct (k0 =? k) eqn:E; simpl.
    + apply Z.eqb_eq in E. subst.
      destruct (k =? k') eqn:E'; [apply Z.eqb_eq in E'; congruence|reflexivity].
    + destruct (k0 =? k'); [reflexivity|exact IH].
Qed.

Lemma tasks_get_app_other k k' v t :
  k' <> k -> tasks_get k' (t ++ [(k, v)]) = tasks_get k' t.
Proof.
  intros Hne. induction t as [|[k0 v0] r IH]; simpl.
  - destruct (k =? k') eqn:E; [apply Z.eqb_eq in E; congruence|reflexivity].
  - destruct (k0 =? k'); [reflexivity|exact IH].
Qed.

Lemma keys_tasks_set k v t :
  tasks_mem k t = true -> map fst (tasks_set k v t) = map fst t.
Proof.
  induction t as [|[k0 v0] r IH]; simpl; [discriminate|].
  destruct (k0 =? k) eqn:E; simpl.
  - apply Z.eqb_eq in E. now subst.
  - intros H. now rewrite IH.
Qed.

Lemma ensured_mem k t : tasks_mem k (ensured k t) = true.
Proof.
  unfold ensured. destruct (tasks_mem k t) eqn:H; [exact H|].
  apply tasks_mem_app_new.
Qed.

Lemma ensured_get k t :
  tasks_get k (ensured k t)
  = Some match tasks_get k t with Some s => s | None => empty_taskset end.
Proof.
  unfold ensured. destruct (tasks_mem k t) eqn:H.
  - destruct (tasks_mem_get _ _ H) as [v ->]. reflexivity.
  - rewrite (tasks_get_app_new _ _ _ H), (tasks_get_not_mem _ _ H). reflexivity.
Qed.

Lemma ensured_unique k t :
  NoDup (map fst t) -> NoDup (map fst (ensured k t)).
Proof.
  unfold ensured. intros H. destruct (tasks_mem k t) eqn:Hm; [exact H|].
  rewrite map_app. simpl.
  apply NoDup_app; [exact H|repeat constructor; auto|].
  intros x Hx [<-|[]].
  apply tasks_mem_in in Hx. congruence.
Qed.

Lemma append_task_eq ctx event task w :
  known_event event ->
  append_task ctx event task None w
  = (Ok tt,
     with_tasks (tasks_set (message_id ctx)
                   (add_to event task (pending_of (message_id ctx) w))
                   (ensured (message_id ctx) (_tasks w))) w).
Proof.
  intros He. unfold append_task, bind, get_tasks, set_tasks, tasks_index, ret,
    pending_of, ensured, with_tasks, add_to.
  set (k := message_id ctx).
  destruct (tasks_mem k (_tasks w)) eqn:Hm; simpl.
  - destruct (tasks_mem_get _ _ Hm) as [v ->].
    destruct He as [->|[->| ->]]; reflexivity.
  - rewrite (tasks_get_app_new _ empty_taskset _ Hm).
    rewrite (tasks_get_not_mem _ _ Hm).
    destruct He as [->|[->| ->]]; reflexivity.
Qed.

(** X4. [append_task] stages and does nothing else.  For one of the three
    categories it returns, the pending set of the request (made empty
    first when the request had none) gets the operation as the last of
    its category, the pending sets of the other requests are as they
    were, no request id comes to occur twice, and the player and the
    trace of calls are untouched.  An [_id] of 0 stands for no [_id]. *)
Theorem append_task_stages :
  forall (ctx : Context) (event : string) (task : pyval) (w : World),
    known_event event ->
    let k := message_id ctx in
    let w' := snd (append_task ctx event task None w) in
    fst (append_task ctx event task None w) = Ok tt
    /\ tasks_get k (_tasks w') = Some (add_to event task (pending_of k w))
    /\ (forall k', k' <> k -> tasks_get k' (_tasks w') = tasks_get k' (_tasks w))
    /\ (keys_unique w -> keys_unique w')
    /\ queue w' = queue w /\ current w' = current w /\ trace w' = trace w
    /\ append_task ctx event task (Some 0) w = append_task ctx event task None w.
Proof.
  intros ctx event task w He k w'.
  assert (Hz : append_task ctx event task (Some 0) w
               = append_task ctx event task None w) by reflexivity.
  rewrite Hz.
  subst w'. rewrite (append_task_eq _ _ _ _ He). cbn [fst snd with_tasks _tasks
    queue current trace]. fold k.
  split; [reflexivity|].
  split; [apply tasks_get_set, ensured_mem|].
  split.
  { intros k' Hk. rewrite tasks_get_set_other by exact Hk.
    unfold ensured. destruct (tasks_mem k (_tasks w)); [reflexivity|].
    now apply tasks_get_app_other. }
  split.
  { unfold keys_unique, with_tasks. cbn [_tasks]. intros Hu.
    rewrite keys_tasks_set by apply ensured_mem. now apply ensured_unique. }
  repeat split.
Qed.

Lemma append_task_stages_witness :
  known_event "insert"
  /\ tasks_get 5
       (_tasks (snd (append_task sample_ctx "insert" (PStr "b") None
                       (snd (append_task sample_ctx "insert" (PStr "a") None
                               empty_world)))))
     = Some (mkTaskSet [] [PStr "a"; PStr "b"] []).
Proof.
  assert (He : known_event "insert") by (right; left; reflexivity).
  split; [exact He|].
  exact (proj1 (proj2 (append_task_stages sample_ctx "insert" (PStr "b")
                         (snd (append_task sample_ctx "insert" (PStr "a") None
                                 empty_world)) He))).
Defined.

(** X5. With an [event] that is none of the three categories [append_task]
    raises a [KeyError], after it has made sure that the request has a
    pending set: a request that had none is left with an empty one. *)
Theorem append_task_unknown_event :
  forall (ctx : Context) (event : string) (task : pyval) (w : World),
    event <> "update" -> event <> "insert" -> event <> "global" ->
    append_task ctx event task None w
    = (Raise KeyError, with_tasks (ensured (message_id ctx) (_tasks w)) w)
    /\ tasks_get (message_id ctx) (ensured (message_id ctx) (_tasks w))
       = Some (pending_of (message_id ctx) w).
Proof.
  intros ctx event task w H1 H2 H3.
  split; [|apply ensured_get].
  apply String.eqb_neq in H1. apply String.eqb_neq in H2.
  apply String.eqb_neq in H3.
  unfold append_task, bind, get_tasks, set_tasks, tasks_index, ret, raise,
    ensured, with_tasks.
  set (k := message_id ctx).
  destruct (tasks_mem k (_tasks w)) eqn:Hm; simpl.
  - destruct (tasks_mem_get _ _ Hm) as [v ->]. rewrite H1, H2, H3.
    destruct w; reflexivity.
  - rewrite (tasks_get_app_new _ empty_taskset _ Hm). now rewrite H1, H2, H3.
Qed.

Lemma append_task_unknown_event_witness :
  "delete" <> "update" /\ "delete" <> "insert" /\ "delete" <> "global"
  /\ append_task sample_ctx "delete" (PStr "a") None empty_world
     = (Raise KeyError, with_tasks [(5, empty_taskset)] empty_world).
Proof.
  assert (H1 : "delete" <> "update") by discriminate.
  assert (H2 : "delete" <> "insert") by discriminate.
  assert (H3 : "delete" <> "global") by discriminate.
  split; [exact H1|]. split; [exact H2|]. split; [exact H3|].
  exact (proj1 (append_task_unknown_event sample_ctx "delete" (PStr "a")
                  empty_world H1 H2 H3)).
Defined.

(** * Further properties of the YouTube and Spotify queries *)

(** X6. [_youtube_first_time_query] calls the YouTube API once.  When the
    call raises, the exception goes up and nothing is staged; otherwise
    the answer is returned, and an insert into the YouTube table is
    staged exactly when the YouTube scope is on and the answer is a
    true value. *)
Theorem youtube_first_time_query_spec :
  forall (env : Env) (ctx : Context) (ti : string) (level : CacheLevel)
         (w : World),
    _youtube_first_time_query env ctx ti level w
    = match youtube_get_call env ti with
      | Raise e => (Raise e, after_youtube ti w)
      | Ok url =>
          (Ok url,
           if is_subset set_youtube level && truthy url
           then staged ctx "insert"
                  (youtube_insert_task ti url (time_now env)) (after_youtube ti w)
           else after_youtube ti w)
      end.
Proof.
  intros env ctx ti level w. unfold _youtube_first_time_query.
  unfold bind at 1. unfold emit at 1. fold (after_youtube ti w).
  change (mkWorld (_tasks w) (queue w) (current w) (draws w)
            (EvYoutubeCall ti :: trace w)) with (after_youtube ti w).
  unfold bind at 1. unfold lift at 1.
  destruct (youtube_get_call env ti) as [url|e]; [|reflexivity].
  unfold bind at 1.
  destruct (is_subset set_youtube level && truthy url); [|reflexivity].
  unfold staged.
  pose proof (append_task_ok ctx "insert"
                (youtube_insert_task ti url (time_now env)) (after_youtube ti w)
                (or_intror (or_introl eq_refl))) as Ha.
  destruct (append_task ctx "insert" _ None (after_youtube ti w))
    as [[[]|x] w2]; simpl in *; [reflexivity|discriminate].
Qed.

(** X7. A cached YouTube URL is served without a call to the YouTube API:
    with the YouTube scope on and a cached value that is not [None],
    [youtube_query] returns the cached value and stages the
    cache-timestamp update, and nothing else. *)
Theorem youtube_query_hit :
  forall (env : Env) (ctx : Context) (ti : string) (w : World) (v : pyval)
         (u : bool),
    is_subset set_youtube (cache_level env) = true ->
    store_fetch_one env "youtube" ti = Ok (v, u) ->
    is_none v = false ->
    youtube_query env ctx ti w
    = (Ok v, staged ctx "update" (youtube_update_task ti)
               (after_read "youtube" ti w))
    /\ youtube_calls (snd (youtube_query env ctx ti w)) = youtube_calls w.
Proof.
  intros env ctx ti w v u Hc Hs Hn.
  assert (He : youtube_query env ctx ti w
               = (Ok v, staged ctx "update" (youtube_update_task ti)
                          (after_read "youtube" ti w))).
  { unfold youtube_query. rewrite Hc. unfold bind at 1.
    rewrite cache_read_eq, Hs, Hn. unfold bind at 1. unfold staged.
    pose proof (append_task_ok ctx "update" (youtube_update_task ti)
                  (after_read "youtube" ti w) (or_introl eq_refl)) as Ha.
    destruct (append_task ctx "update" _ None (after_read "youtube" ti w))
      as [[[]|x] w2]; simpl in *; [reflexivity|discriminate]. }
  rewrite He. split; [reflexivity|].
  cbn [snd]. unfold staged, youtube_calls.
  destruct (append_task_frame ctx "update" (youtube_update_task ti) None
              (after_read "youtube" ti w)) as (_ & _ & _ & ->).
  reflexivity.
Qed.

(** X8. With the YouTube scope off, [youtube_query] neither reads the cache
    nor stages anything: it is the call to the YouTube API and its
    answer. *)
Theorem youtube_query_cache_off :
  forall (env : Env) (ctx : Context) (ti : string) (w : World),
    is_subset set_youtube (cache_level env) = false ->
    youtube_query env ctx ti w
    = (youtube_get_call env ti, after_youtube ti w).
Proof.
  intros env ctx ti w Hc. unfold youtube_query. rewrite Hc.
  unfold bind at 1. unfold ret at 1. cbn [is_none].
  unfold _youtube_first_time_query.
  unfold bind at 1. unfold emit at 1.
  change (mkWorld (_tasks w) (queue w) (current w) (draws w)
            (EvYoutubeCall ti :: trace w)) with (after_youtube ti w).
  unfold bind at 1. unfold lift at 1.
  destruct (youtube_get_call env ti) as [url|e]; [|reflexivity].
  rewrite Hc. reflexivity.
Qed.

(** X9. The Spotify table is read for single tracks only: for every other
    type of query, and whenever the Spotify scope is off, [spotify_query]
    is the first-time query, with no read of the cache. *)
Theorem spotify_query_skips_cache :
  forall (env : Env) (ctx : Context) (qt uri : string) (sk nt : bool)
         (w : World),
    qt <> "track" \/ is_subset set_spotify (cache_level env) = false ->
    spotify_query env ctx qt uri sk nt w
    = _spotify_first_time_query env ctx qt uri nt sk (cache_level env) w.
Proof.
  intros env ctx qt uri sk nt w H. unfold spotify_query.
  assert (Hc : (qt =? "track")%string
               && is_subset set_spotify (cache_level env) = false).
  { destruct H as [H|H].
    - apply String.eqb_neq in H. now rewrite H.
    - rewrite H. apply andb_false_r. }
  rewrite Hc. reflexivity.
Qed.

(** X10. A cached Spotify track is served without a call to the Spotify API:
    [spotify_query] returns the one cached value and stages the
    cache-timestamp update. *)
Theorem spotify_query_hit :
  forall (env : Env) (ctx : Context) (uri : string) (sk nt : bool) (w : World)
         (v : pyval) (u : bool),
    is_subset set_spotify (cache_level env) = true ->
    store_fetch_one env "spotify" ("spotify:track:" ++ uri)%string = Ok (v, u) ->
    is_none v = false ->
    spotify_query env ctx "track" uri sk nt w
    = (Ok [v], staged ctx "update" (spotify_update_task uri)
                 (after_read "spotify" ("spotify:track:" ++ uri)%string w)).
Proof.
  intros env ctx uri sk nt w v u Hc Hs Hn.
  unfold spotify_query. rewrite Hc. cbn [String.eqb Ascii.eqb Bool.eqb andb].
  unfold bind at 1. rewrite cache_read_eq, Hs, Hn.
  unfold bind at 1. unfold staged.
  pose proof (append_task_ok ctx "update" (spotify_update_task uri)
                (after_read "spotify" ("spotify:track:" ++ uri)%string w)
                (or_introl eq_refl)) as Ha.
  destruct (append_task ctx "update" _ None
              (after_read "spotify" ("spotify:track:" ++ uri)%string w))
    as [[[]|x] w2]; simpl in *; [reflexivity|discriminate].
Qed.

Lemma youtube_query_hit_witness :
  is_subset set_youtube (cache_level warm_env) = true
  /\ store_fetch_one warm_env "youtube" "song"
     = Ok (PStr "https://youtu.be/cached", false)
  /\ fst (youtube_query warm_env sample_ctx "song" empty_world)
     = Ok (PStr "https://youtu.be/cached")
  /\ youtube_calls (snd (youtube_query warm_env sample_ctx "song" empty_world))
     = O.
Proof.
  split; [reflexivity|]. split; [reflexivity|].
  destruct (youtube_query_hit warm_env sample_ctx "song" empty_world
              (PStr "https://youtu.be/cached") false eq_refl eq_refl eq_refl)
    as [H1 H2].
  split; [exact (f_equal fst H1)|exact H2].
Defined.

Lemma youtube_query_cache_off_witness :
  is_subset set_youtube (cache_level cold_env) = false
  /\ youtube_query cold_env sample_ctx "song" empty_world
     = (Ok (PStr "https://youtu.be/song"), after_youtube "song" empty_world).
Proof.
  split; [reflexivity|].
  exact (youtube_query_cache_off cold_env sample_ctx "song" empty_world eq_refl).
Defined.

Lemma spotify_query_skips_cache_witness :
  "album" <> "track"
  /\ spotify_query sample_env sample_ctx "album" "xyz" false true empty_world
     = _spotify_first_time_query sample_env sample_ctx "album" "xyz" true false
         (cache_level sample_env) empty_world.
Proof.
  assert (H : "album" <> "track") by discriminate.
  split; [exact H|].
  exact (spotify_query_skips_cache sample_env sample_ctx "album" "xyz" false
           true empty_world (or_introl H)).
Defined.

Lemma spotify_query_hit_witness :
  is_subset set_spotify (cache_level warm_env) = true
  /\ fst (spotify_query warm_env sample_ctx "track" "abc" false true empty_world)
     = Ok [PStr "https://youtu.be/cached"].
Proof.
  split; [reflexivity|].
  exact (f_equal fst
           (spotify_query_hit warm_env sample_ctx "abc" false true empty_world
              (PStr "https://youtu.be/cached") false eq_refl eq_refl eq_refl)).
Defined.

(** * Further properties of the playable-track fetch *)

Lemma lookup_world_reads env ctx q forced w :
  cache_reads (lookup_world env ctx q forced w)
  = (cache_reads w
     + if is_subset set_lavalink (cache_level env) && negb forced
          && negb (q_is_local q) then 1 else 0)%nat.
Proof.
  unfold lookup_world.
  destruct (is_subset set_lavalink (cache_level env) && negb forced
            && negb (q_is_local q)); [|lia].
  destruct (cache_hit env q forced).
  - unfold cache_reads.
    destruct (append_task_frame ctx "update" (lavalink_update_task (q_str q))
                None (after_read "lavalink" (q_str q) w)) as (_ & _ & _ & ->).
    simpl. lia.
  - unfold cache_reads. simpl. lia.
Qed.

(** The run of a forced fetch that is not lazy. *)
Lemma fetch_track_forced_eq n env ctx q w :
  fetch_track_fuel (S n) env ctx q true false w
  = match call_load_tracks env (q_str q) w with
    | (Ok r, w1) =>
        let results := match r with
                       | Some res => res
                       | None => load_failed_result
                       end in
        (Ok (results, true), snd (stage_insert env ctx q results w1))
    | (Raise e, w1) => (Raise e, w1)
    end.
Proof.
  rewrite fetch_track_fuel_eq, lookup_value_forced, lookup_world_forced.
  cbn [truthy andb]. unfold bind at 1. unfold bind at 1.
  destruct (call_load_tracks env (q_str q) w) as [[r|e] w1]; [|reflexivity].
  unfold ret at 1. cbn [fst snd].
  destruct r as [res|]; unfold bind, ret, lift; cbn [LoadResult_init];
    rewrite ?load_failed_init; rewrite stage_insert_eq; reflexivity.
Qed.

Lemma cache_hit_false_value env q forced :
  cache_hit env q forced = false -> lookup_value env q forced = PNone.
Proof. unfold lookup_value. now intros ->. Qed.

(** The run of a fetch that finds no usable cache entry and is not
    lazy. *)
Lemma fetch_track_miss_eq env ctx q forced w :
  cache_hit env q forced = false ->
  fetch_track env ctx q forced false w
  = fetch_track_fuel 1 env ctx q true false (lookup_world env ctx q forced w).
Proof.
  intros Hh. unfold fetch_track.
  rewrite (fetch_track_fuel_eq 1), (fetch_track_fuel_eq 0).
  rewrite lookup_value_forced, lookup_world_forced.
  rewrite (cache_hit_false_value _ _ _ Hh). reflexivity.
Qed.

(** The run of a non-forced, non-lazy fetch whose cached entry decodes
    to a result without error. *)
Lemma fetch_track_healthy_hit env ctx q w r :
  cache_hit env q false = true ->
  LoadResult_init (prepare_cached (lookup_value env q false) (q_str q)) = Ok r ->
  has_error r = false ->
  fetch_track env ctx q false false w
  = (Ok (r, false),
     snd (stage_insert env ctx q r (lookup_world env ctx q false w))).
Proof.
  intros Hh Hr He. unfold fetch_track. rewrite fetch_track_fuel_eq.
  destruct (cache_hit_value _ _ Hh) as [Ht _]. rewrite Ht. cbn [negb andb].
  unfold bind at 1. unfold bind at 1. unfold lift at 1. rewrite Hr, He.
  unfold ret at 1. cbn [fst snd].
  unfold bind, ret. rewrite stage_insert_eq. reflexivity.
Qed.

(** The run of a non-forced, non-lazy fetch whose cached entry cannot be
    decoded. *)
Lemma fetch_track_undecodable_hit env ctx q w e :
  cache_hit env q false = true ->
  LoadResult_init (prepare_cached (lookup_value env q false) (q_str q))
  = Raise e ->
  fetch_track env ctx q false false w
  = (Raise e, lookup_world env ctx q false w).
Proof.
  intros Hh Hr. unfold fetch_track. rewrite fetch_track_fuel_eq.
  destruct (cache_hit_value _ _ Hh) as [Ht _]. rewrite Ht. cbn [negb andb].
  unfold bind at 1. unfold bind at 1. unfold lift at 1. rewrite Hr.
  reflexivity.
Qed.

(** X11. [called_api] tells the truth.  A fetch calls the provider at most
    once, and when it returns, its flag [called_api] is true exactly
    when it has called the provider. *)
Theorem fetch_track_called_api :
  forall (env : Env) (ctx : Context) (q : Query) (forced lazy : bool)
         (w : World),
    (provider_calls (snd (fetch_track env ctx q forced lazy w))
     <= S (provider_calls w))%nat
    /\ (forall r called,
           fst (fetch_track env ctx q forced lazy w) = Ok (r, called) ->
           provider_calls (snd (fetch_track env ctx q forced lazy w))
           = (provider_calls w + if called then 1 else 0)%nat).
Proof.
  intros env ctx q forced lazy w.
  assert (Hforced : forall w0,
             (provider_calls (snd (fetch_track env ctx q true false w0))
              = S (provider_calls w0))
             /\ (forall r c,
                    fst (fetch_track env ctx q true false w0) = Ok (r, c) ->
                    c = true)).
  { intros w0. unfold fetch_track. split; [apply fetch_track_forced_calls|].
    intros r c. rewrite fetch_track_forced_eq.
    destruct (call_load_tracks env (q_str q) w0) as [[x|e] w1];
      cbn [fst]; intros H; inversion H; reflexivity. }
  destruct lazy.
  { rewrite fetch_track_lazy. cbn [fst snd]. rewrite lookup_world_calls.
    split; [lia|]. intros r c H. inversion H. lia. }
  destruct (cache_hit env q forced) eqn:Hh.
  2:{ rewrite (fetch_track_miss_eq _ _ _ _ _ Hh).
      rewrite (fetch_track_forced_fuel 0 1).
      fold (fetch_track env ctx q true false (lookup_world env ctx q forced w)).
      destruct (Hforced (lookup_world env ctx q forced w)) as [Hc Ht].
      rewrite Hc, lookup_world_calls. split; [lia|].
      intros r c H. rewrite (Ht r c H). cbv iota. lia. }
  assert (Hf : forced = false).
  { unfold cache_hit in Hh. destruct forced; [|reflexivity].
    rewrite andb_false_r in Hh. discriminate. }
  subst forced.
  destruct (LoadResult_init (prepare_cached (lookup_value env q false) (q_str q)))
    as [r0|e] eqn:Hr.
  2:{ rewrite (fetch_track_undecodable_hit _ _ _ _ _ Hh Hr). cbn [fst snd].
      rewrite lookup_world_calls. split; [lia|]. intros r c H. discriminate. }
  destruct (has_error r0) eqn:He.
  - rewrite (fetch_track_errored_hit _ _ _ _ _ Hh Hr He).
    destruct (Hforced (lookup_world env ctx q false w)) as [Hc Htrue].
    rewrite lookup_world_calls in Hc.
    unfold bind.
    destruct (fetch_track env ctx q true false (lookup_world env ctx q false w))
      as [[[r1 c1]|x] w1]; cbn [fst snd] in *.
    + unfold ret. rewrite stage_insert_eq. cbn [fst snd].
      assert (Hp : provider_calls
                     (if worth_caching env q r1
                      then snd (append_task ctx "insert"
                                  (lavalink_insert_task (q_str q)
                                     (json_dumps (_raw r1)) (time_now env))
                                  None w1)
                      else w1) = provider_calls w1)
        by (destruct (worth_caching env q r1);
            [apply append_task_calls|reflexivity]).
      rewrite Hp, Hc. split; [lia|].
      intros r c H. inversion H; subst. rewrite (Htrue r c eq_refl).
      cbv iota. lia.
    + rewrite Hc. split; [lia|]. intros r c H. discriminate.
  - rewrite (fetch_track_healthy_hit _ _ _ _ _ Hh Hr He). cbn [fst snd].
    rewrite stage_insert_calls, lookup_world_calls. split; [lia|].
    intros r c H. inversion H. lia.
Qed.

Lemma stage_insert_trace env ctx q r w :
  trace (snd (stage_insert env ctx q r w)) = trace w.
Proof.
  rewrite stage_insert_eq. cbn [snd].
  destruct (worth_caching env q r); [|reflexivity].
  now destruct (append_task_frame ctx "insert"
                  (lavalink_insert_task (q_str q) (json_dumps (_raw r))
                     (time_now env)) None w) as (_ & _ & _ & ->).
Qed.

Lemma call_load_tracks_world env query w :
  _tasks (snd (call_load_tracks env query w)) = _tasks w
  /\ cache_reads (snd (call_load_tracks env query w)) = cache_reads w.
Proof.
  unfold call_load_tracks, bind, emit, ret, raise. simpl.
  destruct (load_tracks env query) as [r|[]]; split; reflexivity.
Qed.

Lemma fetch_track_forced_world n env ctx q w :
  cache_reads (snd (fetch_track_fuel (S n) env ctx q true false w))
  = cache_reads w
  /\ (worth_caching_never env q ->
      _tasks (snd (fetch_track_fuel (S n) env ctx q true false w)) = _tasks w).
Proof.
  rewrite fetch_track_forced_eq.
  destruct (call_load_tracks_world env (q_str q) w) as [Ht Hc].
  destruct (call_load_tracks env (q_str q) w) as [[r|e] w1]; cbn [fst snd] in *.
  - split.
    + unfold cache_reads. rewrite stage_insert_trace. exact Hc.
    + intros Hn. rewrite stage_insert_eq. cbn [snd]. now rewrite Hn.
  - split; [exact Hc|intros _; exact Ht].
Qed.

(** X12. A fetch reads the cache only when it may: with [forced=True], for a
    local query, or with the playable-track scope off, [fetch_track]
    makes no read of the cache store; and for a local query or with the
    scope off it stages nothing either. *)
Theorem fetch_track_skips_cache :
  forall (env : Env) (ctx : Context) (q : Query) (forced lazy : bool)
         (w : World),
    (forced = true \/ q_is_local q = true
     \/ is_subset set_lavalink (cache_level env) = false ->
     cache_reads (snd (fetch_track env ctx q forced lazy w)) = cache_reads w)
    /\ (q_is_local q = true
        \/ is_subset set_lavalink (cache_level env) = false ->
        _tasks (snd (fetch_track env ctx q forced lazy w)) = _tasks w).
Proof.
  intros env ctx q forced lazy w.
  assert (Hoff : forced = true \/ q_is_local q = true
                 \/ is_subset set_lavalink (cache_level env) = false ->
                 is_subset set_lavalink (cache_level env) && negb forced
                 && negb (q_is_local q) = false).
  { intros [->|[->| ->]]; simpl; rewrite ?andb_false_r; reflexivity. }
  assert (Hhit : forced = true \/ q_is_local q = true
                 \/ is_subset set_lavalink (cache_level env) = false ->
                 cache_hit env q forced = false
                 /\ lookup_world env ctx q forced w = w).
  { intros H. unfold cache_hit, lookup_world. rewrite (Hoff H). split; reflexivity. }
  assert (Hnever : q_is_local q = true
                   \/ is_subset set_lavalink (cache_level env) = false ->
                   worth_caching_never env q).
  { intros H r. unfold worth_caching.
    destruct H as [->| ->]; simpl; rewrite ?andb_false_r; reflexivity. }
  split.
  - intros H. destruct (Hhit H) as [Hh Hw].
    destruct lazy.
    + rewrite fetch_track_lazy. cbn [snd]. now rewrite Hw.
    + rewrite (fetch_track_miss_eq _ _ _ _ _ Hh), Hw.
      apply fetch_track_forced_world.
  - intros H. destruct (Hhit (or_intror H)) as [Hh Hw].
    destruct lazy.
    + rewrite fetch_track_lazy. cbn [snd]. now rewrite Hw.
    + rewrite (fetch_track_miss_eq _ _ _ _ _ Hh), Hw.
      apply fetch_track_forced_world. now apply Hnever.
Qed.

Lemma fetch_track_skips_cache_witness :
  (true = true \/ q_is_local sample_query = true
   \/ is_subset set_lavalink (cache_level sample_env) = false)
  /\ cache_reads (snd (fetch_track sample_env sample_ctx sample_query true false
                         empty_world)) = O
  /\ is_subset set_lavalink (cache_level cold_env) = false
  /\ _tasks (snd (fetch_track cold_env sample_ctx sample_query false false
                    empty_world)) = [].
Proof.
  split; [left; reflexivity|].
  split.
  - exact (proj1 (fetch_track_skips_cache sample_env sample_ctx sample_query
                    true false empty_world) (or_introl eq_refl)).
  - split; [reflexivity|].
    exact (proj2 (fetch_track_skips_cache cold_env sample_ctx sample_query
                    false false empty_world) (or_intror eq_refl)).
Defined.

(** X13. A healthy cache entry is served from the cache: a non-forced,
    non-lazy fetch whose cached entry decodes to a result without error
    returns that result with [called_api] false and does not call the
    provider; being a result like any other, it is staged for insertion
    again when it is worth caching. *)
Theorem fetch_track_serves_healthy_hit :
  forall (env : Env) (ctx : Context) (q : Query) (w : World) (r : LoadResult),
    cache_hit env q false = true ->
    LoadResult_init (prepare_cached (lookup_value env q false) (q_str q)) = Ok r ->
    has_error r = false ->
    fst (fetch_track env ctx q false false w) = Ok (r, false)
    /\ provider_calls (snd (fetch_track env ctx q false false w))
       = provider_calls w
    /\ inserts_of ctx (snd (fetch_track env ctx q false false w))
       = inserts_of ctx w
         ++ (if worth_caching env q r
             then [lavalink_insert_task (q_str q) (json_dumps (_raw r))
                     (time_now env)]
             else []).
Proof.
  intros env ctx q w r Hh Hr He.
  rewrite (fetch_track_healthy_hit _ _ _ _ _ Hh Hr He). cbn [fst snd].
  split; [reflexivity|]. split.
  - now rewrite stage_insert_calls, lookup_world_calls.
  - now rewrite inserts_of_stage_insert, inserts_of_lookup_world.
Qed.

Lemma fetch_track_serves_healthy_hit_witness :
  cache_hit healthy_env sample_query false = true
  /\ (exists r,
         LoadResult_init (prepare_cached (lookup_value healthy_env sample_query false)
                            (q_str sample_query)) = Ok r
         /\ has_error r = false
         /\ fst (fetch_track healthy_env sample_ctx sample_query false false
                   empty_world) = Ok (r, false))
  /\ provider_calls (snd (fetch_track healthy_env sample_ctx sample_query false
                            false empty_world)) = O.
Proof.
  split; [reflexivity|].
  pose (r := match LoadResult_init
                     (prepare_cached (lookup_value healthy_env sample_query false)
                        (q_str sample_query)) with
             | Ok r => r
             | Raise _ => load_failed_result
             end).
  assert (Hr : LoadResult_init
                 (prepare_cached (lookup_value healthy_env sample_query false)
                    (q_str sample_query)) = Ok r) by reflexivity.
  assert (He : has_error r = false) by reflexivity.
  destruct (fetch_track_serves_healthy_hit healthy_env sample_ctx sample_query
              empty_world r eq_refl Hr He) as (H1 & H2 & _).
  split; [exists r; split; [exact Hr|split; [exact He|exact H1]]|exact H2].
Defined.



Lemma fetch_track_called_api_witness :
  fst (fetch_track sample_env sample_ctx sample_query false false empty_world)
  = Ok (sample_loaded "https://youtu.be/one", true)
  /\ provider_calls (snd (fetch_track sample_env sample_ctx sample_query false
                            false empty_world)) = 1%nat.
Proof.
  assert (H : fst (fetch_track sample_env sample_ctx sample_query false false
                     empty_world)
              = Ok (sample_loaded "https://youtu.be/one", true))
    by (vm_compute; reflexivity).
  split; [exact H|].
  exact (proj2 (fetch_track_called_api sample_env sample_ctx sample_query false
                  false empty_world) _ _ H).
Defined.

(** * Further properties of the Spotify enqueue loop *)


























(** ** What the loop returns and stages *)











(** * Further properties of the first-time Spotify query *)






(** * Further properties of the autoplay selector *)

(** X21. A sole candidate is enqueued unchecked.  With one candidate,
    [autoplay] draws nothing, consults neither the validity of the query
    nor the content filter, and enqueues the candidate as an autoplay
    track, whether or not it is acceptable. *)
Theorem autoplay_sole_candidate_unchecked :
  forall (env : Env) (t : Track) (w : World),
    let run := autoplay_select env [t] w in
    fst run = Ok tt
    /\ draws (snd run) = draws w
    /\ filter_calls (snd run) = filter_calls w
    /\ In (EvEnqueue (mkTrack (track_raw t) true)) (trace (snd run)).
Proof.
  intros env t w run. subst run.
  cbn [autoplay_select List.length Nat.ltb Nat.leb].
  unfold bind at 1. unfold ret at 1. cbn [fst snd].
  destruct (autoplay_enqueue_spec t w) as (Hok & Hd & Hin).
  split; [exact Hok|]. split; [exact Hd|]. split; [|exact Hin].
  unfold autoplay_enqueue, bind, player_add, dispatch, emit, get_current,
    player_play, ret, filter_calls.
  cbn [fst snd current queue trace].
  destruct (current w); cbn [fst snd trace filter is_filter_call].
  - reflexivity.
  - destruct (queue w ++ [mkTrack (track_raw t) true]);
      cbn [fst snd trace filter is_filter_call]; reflexivity.
Qed.

Lemma no_lookup_trans a b c : no_lookup a b -> no_lookup b c -> no_lookup a c.
Proof. intros [H1 H2] [K1 K2]. split; congruence. Qed.

Lemma select_loop_no_lookup env tracks default :
  forall tries w, no_lookup w (snd (select_loop env tries tracks default w)).
Proof.
  induction tries as [|n IH]; intros w.
  - split; reflexivity.
  - destruct n as [|n].
    + split; reflexivity.
    + rewrite select_loop_step by lia. cbv zeta.
      set (t := nth (Nat.modulo (rng env (draws w)) (List.length tracks))
                  tracks default).
      set (asked := q_valid (process_input_track env t)
                    && negb (q_is_local (process_input_track env t)
                             && negb (q_local_exists (process_input_track env t)))).
      destruct (acceptable env t).
      * cbn [snd]. destruct asked; split; reflexivity.
      * eapply no_lookup_trans; [|apply IH].
        destruct asked; split; reflexivity.
Qed.

Lemma autoplay_enqueue_no_lookup t w :
  no_lookup w (snd (autoplay_enqueue t w)).
Proof.
  unfold autoplay_enqueue, bind, player_add, dispatch, emit, get_current,
    player_play, ret.
  cbn [fst snd current queue].
  destruct (current w); cbn [fst snd]; [split; reflexivity|].
  destruct (queue w ++ [mkTrack (track_raw t) true]); split; reflexivity.
Qed.

Lemma autoplay_select_no_lookup env tracks w :
  no_lookup w (snd (autoplay_select env tracks w)).
Proof.
  destruct tracks as [|first rest]; [split; reflexivity|].
  cbn [autoplay_select]. unfold bind.
  destruct (Nat.ltb 1 (List.length (first :: rest))).
  - pose proof (select_loop_no_lookup env (first :: rest) first
                  (List.length (first :: rest)) w) as H.
    destruct (select_loop env (List.length (first :: rest)) (first :: rest)
                first w) as [[t|e] w1]; cbn [snd] in *; [|exact H].
    eapply no_lookup_trans; [exact H|apply autoplay_enqueue_no_lookup].
  - unfold ret. apply autoplay_enqueue_no_lookup.
Qed.

(** X22. An autoplaylist that has tracks is all [autoplay] looks at:
    when the autoplaylist is enabled, is fetched and has tracks,
    [autoplay] is the selection among its tracks, and neither the cache
    store nor the provider is asked. *)
Theorem autoplay_uses_playlist :
  forall (env : Env) (pl : Playlist) (w : World),
    autoplaylist_enabled env = true ->
    get_playlist env = Ok pl ->
    tracks_obj pl <> [] ->
    truthy (pl_tracks pl) = true ->
    autoplay env w = autoplay_select env (tracks_obj pl) (after_playlist w)
    /\ no_lookup w (snd (autoplay env w)).
Proof.
  intros env pl w He Hp Hne Ht.
  assert (Hrun : autoplay env w
                 = autoplay_select env (tracks_obj pl) (after_playlist w)).
  { unfold autoplay, autoplay_candidates. rewrite He, Hp.
    unfold bind at 1. unfold bind at 1. unfold bind at 1.
    unfold emit at 1. cbn [fst snd]. unfold ret at 1. cbn [fst snd].
    rewrite Ht. cbn [candidates_truthy].
    destruct (tracks_obj pl) as [|t r] eqn:Hl; [congruence|].
    cbn [List.length Nat.eqb negb orb]. unfold ret at 1.
    reflexivity. }
  split; [exact Hrun|]. rewrite Hrun.
  eapply no_lookup_trans; [|apply autoplay_select_no_lookup].
  split; reflexivity.
Qed.

Lemma autoplay_uses_playlist_witness :
  autoplay playlist_env empty_world
  = autoplay_select playlist_env five_tracks (after_playlist empty_world)
  /\ fst (autoplay playlist_env empty_world) = Ok tt.
Proof.
  split.
  - refine (proj1 (autoplay_uses_playlist playlist_env
                     (mkPlaylist five_tracks (PList (map track_raw five_tracks)))
                     empty_world eq_refl eq_refl _ eq_refl)).
    discriminate.
  - vm_compute; reflexivity.
Defined.

(** * The Spotify listing, page by page *)

Lemma truthy_not_none v : truthy v = true -> is_none v = false.
Proof. destruct v; simpl; congruence. Qed.

Lemma truthy_not_false v : truthy v = true -> Listing.is_false v = false.
Proof. destruct v as [|[]| | | | |]; simpl; congruence. Qed.

Lemma py_get_getitem v k c :
  Listing.py_get v k PNone = Ok c -> is_none c = false ->
  Listing.py_getitem v k = Ok c.
Proof.
  destruct v; simpl; try discriminate.
  destruct (assoc_get k d); intros H Hn; inversion H; subst;
    [reflexivity|discriminate].
Qed.

(** The call for a later page: a truthy cursor. *)
Lemma later_page_eq fuel api nt qt uri cursor params log :
  truthy cursor = true ->
  Listing._spotify_fetch_tracks (S fuel) api nt qt uri cursor params log
  = match Listing.get_call api cursor params with
    | Raise e => (Raise e, log)
    | Ok page =>
        match Listing.error_check page cursor with
        | Raise e => (Raise e, log)
        | Ok (Some v) => (Ok v, log)
        | Ok None => (Ok page, log)
        end
    end.
Proof.
  intros Ht. cbn [Listing._spotify_fetch_tracks]. unfold Listing.first_call.
  rewrite (truthy_not_false _ Ht).
  destruct (Listing.get_call api cursor params) as [page|e];
    cbn [Listing.rbind]; [|reflexivity].
  destruct (Listing.error_check page cursor) as [[v|]|e]; try reflexivity.
  rewrite Ht. reflexivity.
Qed.

Lemma error_check_clean page recursive :
  Listing.py_getitem page "error" = Raise KeyError ->
  Listing.error_check page recursive = Ok None.
Proof. intros H. unfold Listing.error_check. rewrite H. reflexivity. Qed.

Lemma error_check_later page cursor err status :
  truthy cursor = true ->
  Listing.py_getitem page "error" = Ok err ->
  Listing.py_getitem err "status" = Ok status ->
  Listing.error_check page cursor = Ok (Some Listing.next_none).
Proof.
  intros Ht He Hs. unfold Listing.error_check. rewrite He.
  cbn [Listing.rbind]. rewrite Hs. cbn [Listing.rbind]. rewrite Ht.
  cbn [negb]. rewrite andb_false_r. reflexivity.
Qed.

(** One turn of the loop on a page that has a next one. *)
Lemma pages_step fuel api nt qt uri params total results tracks count log
      tracks' n cursor :
  Listing.page_tracks qt results tracks = Ok (tracks', n) ->
  Listing.py_get results "next" PNone = Ok cursor ->
  truthy cursor = true ->
  Listing.pages (S fuel) api nt qt uri params total results tracks count log
  = match Listing._spotify_fetch_tracks fuel api nt qt uri cursor params
            (if nt then (count + n, total) :: log else log) with
    | (Raise KeyError, log') =>
        (Raise (SpotifyFetchError Listing.msg_invalid), log')
    | (Raise e, log') => (Raise e, log')
    | (Ok r, log') =>
        Listing.pages fuel api nt qt uri params total r tracks' (count + n) log'
    end.
Proof.
  intros Hp Hn Ht. cbn [Listing.pages]. rewrite Hp, Hn. cbv zeta.
  rewrite (truthy_not_none _ Ht). cbn [negb].
  rewrite (py_get_getitem _ _ _ Hn (truthy_not_none _ Ht)).
  reflexivity.
Qed.

(** The turn of the loop on the last page. *)
Lemma pages_last fuel api nt qt uri params total results tracks count log
      tracks' n :
  Listing.page_tracks qt results tracks = Ok (tracks', n) ->
  Listing.py_get results "next" PNone = Ok PNone ->
  Listing.pages (S fuel) api nt qt uri params total results tracks count log
  = (Ok (PList tracks'), if nt then (count + n, total) :: log else log).
Proof.
  intros Hp Hn. cbn [Listing.pages]. rewrite Hp, Hn. reflexivity.
Qed.

Lemma page_tracks_next_none qt tracks :
  (qt =? "track")%string = false ->
  Listing.page_tracks qt Listing.next_none tracks = Ok (tracks, 0).
Proof. intros H. unfold Listing.page_tracks. rewrite H. reflexivity. Qed.

(** X23. A bad token is reported at once: when the first answer of the
    Spotify API carries an error of status 401, the listing raises the
    fetch error about the API key, before any notification, whatever
    the type of the query. *)
Theorem listing_unauthorized :
  forall (fuel : nat) (api : Listing.SpotifyApi) (nt : bool) (qt uri : string)
         (log : Listing.Log) (call p results err : pyval),
    Listing.spotify_format_call api qt uri = Ok (call, p) ->
    Listing.get_call api call p = Ok results ->
    Listing.py_getitem results "error" = Ok err ->
    Listing.py_getitem err "status" = Ok (PInt 401) ->
    Listing._spotify_fetch_tracks (S fuel) api nt qt uri (PBool false) PNone log
    = (Raise (SpotifyFetchError Listing.msg_auth), log).
Proof.
  intros fuel api nt qt uri log call p results err Hf Hg He Hs.
  cbn [Listing._spotify_fetch_tracks]. unfold Listing.first_call.
  cbn [Listing.is_false]. rewrite Hf. cbn [Listing.rbind fst snd].
  rewrite Hg. cbn [Listing.rbind].
  unfold Listing.error_check. rewrite He. cbn [Listing.rbind].
  rewrite Hs. reflexivity.
Qed.

Lemma listing_unauthorized_witness :
  Listing._spotify_fetch_tracks 1 sample_api true "playlist" "xyz" (PBool false)
    PNone []
  = (Raise (SpotifyFetchError Listing.msg_auth), []).
Proof.
  exact (listing_unauthorized 0 sample_api true "playlist" "xyz" []
           (PStr "https://api.spotify.com/v1/playlists/xyz") (PDict [])
           bad_token
           (PDict [("status", PInt 401); ("message", PStr "Invalid access token")])
           eq_refl eq_refl eq_refl eq_refl).
Defined.

(** X24. An error on a later page is not reported.  When the answer to
    the cursor of a page carries an error with a status, be it 401, the
    listing of an album or a playlist raises nothing: it ends there and
    returns the tracks gathered so far, after one more notification
    with the same count. *)
Theorem listing_error_page_ends_listing :
  forall (fuel : nat) (api : Listing.SpotifyApi) (nt : bool) (qt uri : string)
         (params total results : pyval) (tracks tracks' : list pyval)
         (n count : Z) (log : Listing.Log) (cursor page err status : pyval),
    (qt =? "track")%string = false ->
    Listing.page_tracks qt results tracks = Ok (tracks', n) ->
    Listing.py_get results "next" PNone = Ok cursor ->
    truthy cursor = true ->
    Listing.get_call api cursor params = Ok page ->
    Listing.py_getitem page "error" = Ok err ->
    Listing.py_getitem err "status" = Ok status ->
    Listing.pages (S (S fuel)) api nt qt uri params total results tracks count
      log
    = (Ok (PList tracks'),
       if nt then (count + n, total) :: (count + n, total) :: log else log).
Proof.
  intros fuel api nt qt uri params total results tracks tracks' n count log
    cursor page err status Hq Hp Hn Ht Hg He Hs.
  rewrite (pages_step _ _ _ _ _ _ _ _ _ _ _ _ _ _ Hp Hn Ht).
  rewrite later_page_eq by exact Ht. rewrite Hg.
  rewrite (error_check_later _ _ _ _ Ht He Hs).
  rewrite (pages_last _ _ _ _ _ _ _ _ _ _ _ _ _
             (page_tracks_next_none qt tracks' Hq) eq_refl).
  rewrite Z.add_0_r. destruct nt; reflexivity.
Qed.

Lemma listing_error_page_ends_listing_witness :
  Listing._spotify_fetch_tracks 3 broken_api true "album" "abc" (PBool false)
    PNone []
  = (Ok (PList [PStr "a"; PStr "b"]), [(2, PInt 3); (2, PInt 3)]).
Proof.
  exact (listing_error_page_ends_listing 0 broken_api true "album" "abc"
           (PDict []) (PInt 3) album_page1 [] [PStr "a"; PStr "b"] 2 0 []
           (PStr "page2") bad_token
           (PDict [("status", PInt 401); ("message", PStr "Invalid access token")])
           (PInt 401) eq_refl eq_refl eq_refl eq_refl eq_refl eq_refl eq_refl).
Defined.

Lemma pages_linked api nt qt uri params total :
  forall rest page tracks count log fuel all,
    Listing.linked api params page rest ->
    Listing.gather qt (page :: rest) tracks = Ok all ->
    (List.length rest < fuel)%nat ->
    exists log',
      Listing.pages fuel api nt qt uri params total page tracks count log
      = (Ok (PList all), log')
      /\ List.length log'
         = (List.length log + if nt then S (List.length rest) else 0)%nat.
Proof.
  induction rest as [|q rest IH]; intros page tracks count log fuel all Hl Hg Hf.
  - destruct fuel as [|fuel]; [cbn [List.length] in Hf; lia|].
    cbn [Listing.linked] in Hl. destruct Hl as (_ & Hn).
    cbn [Listing.gather] in Hg.
    destruct (Listing.page_tracks qt page tracks) as [[tracks' n]|e] eqn:Hp;
      cbn [Listing.rbind fst] in Hg; [|discriminate].
    inversion Hg; subst all.
    rewrite (pages_last _ _ _ _ _ _ _ _ _ _ _ _ _ Hp Hn).
    eexists. split; [reflexivity|].
    destruct nt; cbn [List.length]; lia.
  - destruct fuel as [|fuel]; [cbn [List.length] in Hf; lia|].
    cbn [List.length] in Hf.
    destruct fuel as [|fuel]; [lia|].
    cbn [Listing.linked] in Hl. fold Listing.linked in Hl.
    destruct Hl as (_ & (cursor & Hn & Ht & Hc) & Hrest).
    pose proof Hrest as Hclean. destruct rest; cbn [Listing.linked] in Hclean;
      destruct Hclean as (Hclean & _).
    all: cbn [Listing.gather] in Hg;
      destruct (Listing.page_tracks qt page tracks) as [[tracks' n]|e] eqn:Hp;
      cbn [Listing.rbind fst] in Hg; [|discriminate].
    all: rewrite (pages_step _ _ _ _ _ _ _ _ _ _ _ _ _ _ Hp Hn Ht);
      rewrite later_page_eq by exact Ht; rewrite Hc;
      rewrite (error_check_clean _ _ Hclean).
    all: match goal with
         | |- context [Listing.pages _ _ _ _ _ _ _ _ _ ?c ?l] =>
             destruct (IH q tracks' c l (S fuel) all Hrest Hg) as (log' & -> & Hlen);
             [cbn [List.length] in *; lia|]
         end.
    all: exists log'; split; [reflexivity|]; rewrite Hlen;
      destruct nt; cbn [List.length]; lia.
Qed.

(** X25. The listing gathers every page.  When the pages of a listing
    follow one another from the first answer of the Spotify API to a
    page without [next], the listing returns the tracks of all the
    pages, in order, and notifies once per page; fuel for one call and
    one turn per page is enough. *)
Theorem listing_gathers_all_pages :
  forall (api : Listing.SpotifyApi) (nt : bool) (qt uri : string)
         (call p page total : pyval) (rest all : list pyval) (fuel : nat)
         (log : Listing.Log),
    Listing.spotify_format_call api qt uri = Ok (call, p) ->
    Listing.get_call api call p = Ok page ->
    Listing.linked api p page rest ->
    Listing.rbind (Listing.py_get page "tracks" page)
      (fun inner => Listing.py_get inner "total" (PInt 1)) = Ok total ->
    Listing.gather qt (page :: rest) [] = Ok all ->
    (List.length rest < fuel)%nat ->
    exists log',
      Listing._spotify_fetch_tracks (S fuel) api nt qt uri (PBool false) PNone
        log
      = (Ok (PList all), log')
      /\ List.length log'
         = (List.length log + if nt then S (List.length rest) else 0)%nat.
Proof.
  intros api nt qt uri call p page total rest all fuel log Hf Hg Hl Ht Ha Hfuel.
  cbn [Listing._spotify_fetch_tracks]. unfold Listing.first_call.
  cbn [Listing.is_false]. rewrite Hf. cbn [Listing.rbind fst snd].
  rewrite Hg. cbn [Listing.rbind].
  assert (Hclean : Listing.py_getitem page "error" = Raise KeyError).
  { destruct rest; cbn [Listing.linked] in Hl; apply Hl. }
  rewrite (error_check_clean _ _ Hclean). cbn [truthy].
  rewrite Ht.
  apply pages_linked; assumption.
Qed.

Lemma listing_gathers_all_pages_witness :
  exists log',
    Listing._spotify_fetch_tracks 3 sample_api true "album" "abc" (PBool false)
      PNone []
    = (Ok (PList [PStr "a"; PStr "b"; PStr "c"]), log')
    /\ List.length log' = 2%nat.
Proof.
  refine (listing_gathers_all_pages sample_api true "album" "abc"
            (PStr "https://api.spotify.com/v1/albums/abc") (PDict [])
            album_page1 (PInt 3) [album_page2] [PStr "a"; PStr "b"; PStr "c"]
            2 [] eq_refl eq_refl _ eq_refl eq_refl _).
  - cbn [Listing.linked]. split; [reflexivity|]. split.
    + exists (PStr "page2"). split; [reflexivity|]. split; reflexivity.
    + split; reflexivity.
  - cbn [List.length]. lia.
Defined.

Lemma with_track_dicts ks :
  Forall (fun k => is_dict k = true) ks ->
  Listing.with_track ks
  = Ok (map (dict_get "track")
          (filter (fun k => truthy (dict_get "track" k)) ks)).
Proof.
  induction 1 as [|k ks Hk _ IH]; [reflexivity|].
  destruct k; try discriminate.
  cbn [Listing.with_track filter Listing.py_get Listing.py_getitem dict_get
       Listing.rbind].
  destruct (assoc_get "track" d) as [v|] eqn:E; cbn [truthy].
  - destruct (truthy v); [|exact IH].
    cbn [Listing.rbind]. rewrite IH. cbn [Listing.rbind map dict_get].
    rewrite E. reflexivity.
  - exact IH.
Qed.

(** X26. A page of a playlist gives the tracks of its entries, and only
    those: an entry whose [track] is missing or false is dropped and is
    not counted, and the others give their [track], in order. *)
Theorem playlist_page_drops_missing_tracks :
  forall (qt : string) (results inner : pyval) (ks tracks : list pyval),
    (qt =? "track")%string = false ->
    (qt =? "album")%string = false ->
    Listing.py_get results "tracks" results = Ok inner ->
    Listing.py_get inner "items" (PList []) = Ok (PList ks) ->
    Forall (fun k => is_dict k = true) ks ->
    let kept := filter (fun k => truthy (dict_get "track" k)) ks in
    Listing.page_tracks qt results tracks
    = Ok (tracks ++ map (dict_get "track") kept, Z.of_nat (List.length kept)).
Proof.
  intros qt results inner ks tracks Hq Ha Hi Hk Hd kept. subst kept.
  unfold Listing.page_tracks. rewrite Hq, Hi. cbn [Listing.rbind].
  rewrite Hk. cbn [Listing.rbind].
  destruct ks as [|k ks].
  - cbn [truthy List.length Nat.eqb negb filter map].
    now rewrite app_nil_r.
  - cbn [truthy List.length Nat.eqb negb]. rewrite Ha.
    cbn [Listing.py_iter Listing.rbind].
    rewrite (with_track_dicts _ Hd). cbn [Listing.rbind].
    now rewrite length_map.
Qed.

Lemma playlist_page_drops_missing_tracks_witness :
  Listing.page_tracks "playlist" playlist_page []
  = Ok ([PDict [("name", PStr "one")]; PDict [("name", PStr "two")]], 2).
Proof.
  refine (playlist_page_drops_missing_tracks "playlist" playlist_page
            playlist_page _ [] eq_refl eq_refl eq_refl eq_refl _).
  repeat constructor.
Defined.
